(** * Agent activity panels: a shallow embedding of the panel logic

    The development follows the TypeScript sources file by file:

    - [Js]: the few JavaScript primitives the panels rely on (truthiness of
      strings, [a || b], [Array.prototype.slice], [join], [includes],
      insertion-ordered [Map], stable [sort]);
    - [SessionTypes]: [types/session.types.ts] (colour palette, todo items);
    - [AgentEventsPanel]: [panels/AgentEventsPanel.tsx] (event buffer, repo
      filter, expansion set);
    - [AgentSessionsPanel]: [panels/AgentSessionsPanel.tsx] (filtering,
      grouping by directory, ordering of groups);
    - [AgentSessionCard]: [components/AgentSessionCard.tsx] (current task).

    Strings are sequences of code units ([string]); integers that the code
    only counts with are [nat], clock readings and array indices that come
    from the host are [Z]. *)

From Stdlib Require Import ZArith List Ascii String Bool Lia.
From Stdlib Require Import Sorting.Sorted Sorting.Permutation.
From stdpp Require Import base decidable option list gmap sets strings.
From stdpp Require Import pretty sorting.

Local Open Scope Z_scope.
Local Open Scope nat_scope.
Local Open Scope stdpp_scope.

(* ===================================================================== *)
(** * JavaScript primitives *)
(* ===================================================================== *)

Module Js.

(** [Boolean(s)] for a string: only the empty string is falsy. *)
Definition truthy (s : string) : bool :=
  match s with
  | EmptyString => false
  | String _ _ => true
  end.

(** [Boolean(v)] for a value that is a string or [undefined]/[null]. *)
Definition truthyOpt (v : option string) : bool :=
  match v with
  | Some s => truthy s
  | None => false
  end.

(** [a || b] on strings. *)
Definition or (a b : string) : string := if truthy a then a else b.

(** [a || b] where either side may be [undefined]. *)
Definition orOpt (a b : option string) : option string :=
  if truthyOpt a then a else b.

(** [a === b] on values that are strings or [undefined]. *)
Definition strictEq (a b : option string) : bool :=
  match a, b with
  | Some x, Some y => String.eqb x y
  | None, None => true
  | _, _ => false
  end.

(** [arr.slice(-n)]: the last [n] elements (all of them when the array is
    shorter). *)
Definition sliceLast {A} (n : nat) (arr : list A) : list A :=
  drop (length arr - n) arr.

(** [arr.join(sep)]. *)
Fixpoint join (sep : string) (arr : list string) : string :=
  match arr with
  | [] => EmptyString
  | [x] => x
  | x :: rest => String.append x (String.append sep (join sep rest))
  end.

(** [arr.filter(Boolean)] on an array of strings and [undefined]s. *)
Fixpoint filterBoolean (arr : list (option string)) : list string :=
  match arr with
  | [] => []
  | Some s :: rest => if truthy s then s :: filterBoolean rest else filterBoolean rest
  | None :: rest => filterBoolean rest
  end.

(** [text.startsWith(q)]. *)
Fixpoint startsWith (text q : string) : bool :=
  match q, text with
  | EmptyString, _ => true
  | String _ _, EmptyString => false
  | String a q', String b text' => Ascii.eqb a b && startsWith text' q'
  end.

(** [text.includes(q)]: [q] occurs at some position of [text]. *)
Fixpoint includes (text q : string) : bool :=
  startsWith text q ||
  match text with
  | EmptyString => false
  | String _ text' => includes text' q
  end.

(** An insertion-ordered [Map<string, V>]: [get], and [set], which keeps the
    position of a key that is already there and appends a new one. *)
Definition Map (V : Type) : Type := list (string * V).

Fixpoint get {V} (m : Map V) (k : string) : option V :=
  match m with
  | [] => None
  | (k', v) :: rest => if String.eqb k' k then Some v else get rest k
  end.

Fixpoint set {V} (m : Map V) (k : string) (v : V) : Map V :=
  match m with
  | [] => [(k, v)]
  | (k', v') :: rest =>
      if String.eqb k' k then (k', v) :: rest else (k', v') :: set rest k v
  end.

(** [Array.from(m.values())]. *)
Definition values {V} (m : Map V) : list V := map snd m.

(** [arr.sort(cmp)]: the sort is stable; for a consistent comparator every
    stable sort returns the same array, which insertion from the right
    computes. *)
Fixpoint insertSorted {A} (cmp : A -> A -> Z) (x : A) (l : list A) : list A :=
  match l with
  | [] => [x]
  | y :: l' => if (cmp x y <=? 0)%Z then x :: y :: l' else y :: insertSorted cmp x l'
  end.

Definition sort {A} (cmp : A -> A -> Z) (arr : list A) : list A :=
  foldr (insertSorted cmp) [] arr.

(** A host for running the panels on examples: lower-casing of the ASCII
    letters, and collation by code unit. *)
Definition asciiToLowerCase (c : ascii) : ascii :=
  let n := nat_of_ascii c in
  if (65 <=? n) && (n <=? 90) then ascii_of_nat (n + 32) else c.

Fixpoint toLowerCaseAscii (s : string) : string :=
  match s with
  | EmptyString => EmptyString
  | String c s' => String (asciiToLowerCase c) (toLowerCaseAscii s')
  end.

Fixpoint compareCodeUnits (a b : string) : Z :=
  match a, b with
  | EmptyString, EmptyString => 0%Z
  | EmptyString, String _ _ => (-1)%Z
  | String _ _, EmptyString => 1%Z
  | String x a', String y b' =>
      if nat_of_ascii x <? nat_of_ascii y then (-1)%Z
      else if nat_of_ascii y <? nat_of_ascii x then 1%Z
      else compareCodeUnits a' b'
  end.

End Js.

(* ===================================================================== *)
(** * types/session.types.ts *)
(* ===================================================================== *)

Module SessionTypes.

Inductive TodoStatus := pending | in_progress | completed.

Record TodoItem := {
  id : string;
  content : string;
  status : TodoStatus;
  timestamp : Z;
}.

Definition SESSION_COLORS : list string :=
  [ "#3b82f6"; "#10b981"; "#8b5cf6"; "#f59e0b";
    "#ef4444"; "#06b6d4"; "#ec4899"; "#14b8a6" ].

(** [SESSION_COLORS[index % SESSION_COLORS.length]]: [%] is the truncating
    remainder, and an index outside the array reads [undefined]. *)
Definition getSessionColor (index : Z) : option string :=
  let i := Z.rem index (Z.of_nat (length SESSION_COLORS)) in
  if (i <? 0)%Z then None else SESSION_COLORS !! Z.to_nat i.

End SessionTypes.

(* ===================================================================== *)
(** * panels/AgentEventsPanel.tsx *)
(* ===================================================================== *)

Module AgentEventsPanel.

(** The fields of [RepoNormalizedUniversalAgentSessionEvent] that the panel
    reads. *)
Record RepositoryInfo := {
  root : string;
  owner : string;
  repo : string;
}.

Record AgentEvent := {
  eventType : string;
  sessionId : string;
  toolName : option string;
  repository : option RepositoryInfo;
  workingDirectory : option string;
}.

(** A panel event: [payload] stands for [panelEvent.payload?.event]. *)
Record PanelEvent := { payload : option AgentEvent }.

Record EventEntry := {
  event : AgentEvent;
  timestamp : Z;
  localIndex : nat;
}.

Definition MAX_EVENTS : nat := 500.

(** The component's state hooks, the counter ref, and the repository path
    it reads from its context. *)
Record PanelState := {
  events : list EventEntry;
  expandedEvents : gset nat;
  filterByRepo : bool;
  selectedEventTypes : gset string;
  autoScroll : bool;
  eventCounterRef : nat;
  repositoryPath : option string;
}.

(** The state at mount. *)
Definition initialState (repositoryPath : option string) : PanelState :=
  {| events := [];
     expandedEvents := ∅;
     filterByRepo := true;
     selectedEventTypes := ∅;
     autoScroll := true;
     eventCounterRef := 0;
     repositoryPath := repositoryPath |}.

(** [agentEvent.repository?.root || agentEvent.workingDirectory] *)
Definition eventRepoPath (agentEvent : AgentEvent) : option string :=
  Js.orOpt (root <$> repository agentEvent) (workingDirectory agentEvent).

(** The guard of the subscription handler: the event it goes on with, or
    [None] when it returns early. *)
Definition accepted (st : PanelState) (panelEvent : PanelEvent) : option AgentEvent :=
  match payload panelEvent with
  | None => None
  | Some agentEvent =>
      if filterByRepo st && Js.truthyOpt (repositoryPath st) then
        if negb (Js.strictEq (eventRepoPath agentEvent) (repositoryPath st))
        then None
        else Some agentEvent
      else Some agentEvent
  end.

(** The updater handed to [setEvents]. *)
Definition appendEntry (prev : list EventEntry) (newEntry : EventEntry) : list EventEntry :=
  let updated := prev ++ [newEntry] in
  if MAX_EVENTS <? length updated then Js.sliceLast MAX_EVENTS updated else updated.

(** The handler of ['agent-event:received']; [now] is the reading of
    [Date.now()]. *)
Definition onAgentEventReceived (st : PanelState) (panelEvent : PanelEvent) (now : Z)
  : PanelState :=
  match accepted st panelEvent with
  | None => st
  | Some agentEvent =>
      let newEntry :=
        {| event := agentEvent; timestamp := now; localIndex := eventCounterRef st |} in
      {| events := appendEntry (events st) newEntry;
         expandedEvents := expandedEvents st;
         filterByRepo := filterByRepo st;
         selectedEventTypes := selectedEventTypes st;
         autoScroll := autoScroll st;
         eventCounterRef := S (eventCounterRef st);
         repositoryPath := repositoryPath st |}
  end.

(** The updater of [toggleExpanded] (and of [toggleEventTypeFilter]). *)
Definition toggle `{Countable K} (prev : gset K) (x : K) : gset K :=
  if decide (x ∈ prev) then prev ∖ {[x]} else prev ∪ {[x]}.

Definition toggleExpanded (st : PanelState) (index : nat) : PanelState :=
  {| events := events st;
     expandedEvents := toggle (expandedEvents st) index;
     filterByRepo := filterByRepo st;
     selectedEventTypes := selectedEventTypes st;
     autoScroll := autoScroll st;
     eventCounterRef := eventCounterRef st;
     repositoryPath := repositoryPath st |}.

Definition toggleEventTypeFilter (st : PanelState) (eventType : string) : PanelState :=
  {| events := events st;
     expandedEvents := expandedEvents st;
     filterByRepo := filterByRepo st;
     selectedEventTypes := toggle (selectedEventTypes st) eventType;
     autoScroll := autoScroll st;
     eventCounterRef := eventCounterRef st;
     repositoryPath := repositoryPath st |}.

Definition clearEvents (st : PanelState) : PanelState :=
  {| events := [];
     expandedEvents := ∅;
     filterByRepo := filterByRepo st;
     selectedEventTypes := selectedEventTypes st;
     autoScroll := autoScroll st;
     eventCounterRef := eventCounterRef st;
     repositoryPath := repositoryPath st |}.

(** [setFilterByRepo(!filterByRepo)] *)
Definition toggleFilterByRepo (st : PanelState) : PanelState :=
  {| events := events st;
     expandedEvents := expandedEvents st;
     filterByRepo := negb (filterByRepo st);
     selectedEventTypes := selectedEventTypes st;
     autoScroll := autoScroll st;
     eventCounterRef := eventCounterRef st;
     repositoryPath := repositoryPath st |}.

Definition toggleAutoScroll (st : PanelState) : PanelState :=
  {| events := events st;
     expandedEvents := expandedEvents st;
     filterByRepo := filterByRepo st;
     selectedEventTypes := selectedEventTypes st;
     autoScroll := negb (autoScroll st);
     eventCounterRef := eventCounterRef st;
     repositoryPath := repositoryPath st |}.

(** The host scopes the panel to another repository (or to none). *)
Definition scopeChanged (st : PanelState) (path : option string) : PanelState :=
  {| events := events st;
     expandedEvents := expandedEvents st;
     filterByRepo := filterByRepo st;
     selectedEventTypes := selectedEventTypes st;
     autoScroll := autoScroll st;
     eventCounterRef := eventCounterRef st;
     repositoryPath := path |}.

(** The view: [filteredEvents]. *)
Definition filteredEvents (st : PanelState) : list EventEntry :=
  if decide (size (selectedEventTypes st) = 0) then events st
  else List.filter (fun entry => bool_decide (eventType (event entry) ∈ selectedEventTypes st))
         (events st).

(** Everything that can happen to a mounted panel. *)
Inductive Action :=
| Received (panelEvent : PanelEvent) (now : Z)
| ToggleExpanded (index : nat)
| ToggleEventTypeFilter (eventType : string)
| ClearEvents
| ToggleFilterByRepo
| ToggleAutoScroll
| ScopeChanged (path : option string).

Definition step (st : PanelState) (a : Action) : PanelState :=
  match a with
  | Received panelEvent now => onAgentEventReceived st panelEvent now
  | ToggleExpanded index => toggleExpanded st index
  | ToggleEventTypeFilter eventType => toggleEventTypeFilter st eventType
  | ClearEvents => clearEvents st
  | ToggleFilterByRepo => toggleFilterByRepo st
  | ToggleAutoScroll => toggleAutoScroll st
  | ScopeChanged path => scopeChanged st path
  end.

Definition run (st : PanelState) (acts : list Action) : PanelState :=
  fold_left step acts st.

(** The entries the handler creates along a run, in order of receipt: the
    history of the panel, of which [events] keeps a window. *)
Fixpoint created (st : PanelState) (acts : list Action) : list EventEntry :=
  match acts with
  | [] => []
  | a :: rest =>
      match a with
      | Received panelEvent now =>
          match accepted st panelEvent with
          | Some agentEvent =>
              [{| event := agentEvent; timestamp := now; localIndex := eventCounterRef st |}]
          | None => []
          end
      | _ => []
      end ++ created (step st a) rest
  end.

(** Receiving a batch of panel events, one after the other. *)
Definition receiveAll (st : PanelState) (batch : list (PanelEvent * Z)) : PanelState :=
  fold_left (fun s '(panelEvent, now) => onAgentEventReceived s panelEvent now) batch st.

(** The events of a batch that get past the guard, in order of receipt. *)
Definition acceptedEvents (st : PanelState) (batch : list (PanelEvent * Z)) : list AgentEvent :=
  omap (fun '(pe, _) => accepted st pe) batch.

End AgentEventsPanel.

(* ===================================================================== *)
(** * panels/AgentSessionsPanel.tsx *)
(* ===================================================================== *)

Module AgentSessionsPanel.

(** [SessionStatus] is a union of string literals; [statusString] is the
    string a value of it is at run time. *)
Inductive SessionStatus := active | idle | waiting | inactive | stopped.

Definition statusString (s : SessionStatus) : string :=
  match s with
  | active => "active"
  | idle => "idle"
  | waiting => "waiting"
  | inactive => "inactive"
  | stopped => "stopped"
  end.

(** The fields of [UIAgentSessionData] and [SessionWithEvents] that the
    panel reads. *)
Record UIAgentSessionData := {
  sessionId : string;
  directory : string;
  workingDirectory : string;
  lastActivity : option Z;
  customName : option string;
  status : SessionStatus;
}.

Record LatestEvent := {
  toolName : string;
  timestamp : Z;
  fileName : option string;
}.

Record SessionWithEvents := {
  session : UIAgentSessionData;
  latestEvent : option LatestEvent;
  lastTodos : option (list SessionTypes.TodoItem);
}.

(** [SessionDirectoryGroup]: [groupDirectory] and [groupLastActivity] are its
    fields [directory] and [lastActivity], which the session record has
    too. *)
Record SessionDirectoryGroup := {
  groupDirectory : string;
  normalizedDirectory : string;
  sessions : list SessionWithEvents;
  groupLastActivity : Z;
  isCurrentDirectory : bool;
}.

Definition UNKNOWN_DIRECTORY_LABEL : string := "Unknown Directory".

(** [s.replace(/\\/g, '/')] *)
Fixpoint replaceBackslashes (s : string) : string :=
  match s with
  | EmptyString => EmptyString
  | String c s' =>
      String (if Ascii.eqb c "\"%char then "/"%char else c) (replaceBackslashes s')
  end.

(** [s.replace(/\/+$/, '')]: the leftmost match of the pattern is the whole
    run of slashes that ends the string. *)
Fixpoint stripTrailingSlashes (s : string) : string :=
  match s with
  | EmptyString => EmptyString
  | String c s' =>
      let r := stripTrailingSlashes s' in
      if Ascii.eqb c "/"%char && negb (Js.truthy r) then EmptyString else String c r
  end.

(** [p.replace(/\\/g, '/').replace(/\/+$/, '') || p], the expression both
    [normalizedRepositoryPath] and [normalizedKey] are computed with. *)
Definition normalizePath (p : string) : string :=
  Js.or (stripTrailingSlashes (replaceBackslashes p)) p.

Definition normalizedRepositoryPath (repositoryPath : option string) : option string :=
  match repositoryPath with
  | None => None
  | Some p => if negb (Js.truthy p) then None else Some (normalizePath p)
  end.

Definition rawDirectory (sessionWithEvents : SessionWithEvents) : string :=
  Js.or (Js.or (directory (session sessionWithEvents))
               (workingDirectory (session sessionWithEvents)))
        UNKNOWN_DIRECTORY_LABEL.

Definition normalizedKey (sessionWithEvents : SessionWithEvents) : string :=
  let rawDirectory := rawDirectory sessionWithEvents in
  if String.eqb rawDirectory UNKNOWN_DIRECTORY_LABEL
  then UNKNOWN_DIRECTORY_LABEL
  else normalizePath rawDirectory.

(** [group.sessions.push(s)] and the update of [group.lastActivity]. *)
Definition pushSession (group : SessionDirectoryGroup) (sessionWithEvents : SessionWithEvents)
  : SessionDirectoryGroup :=
  let lastActivity := default 0%Z (lastActivity (session sessionWithEvents)) in
  {| groupDirectory := groupDirectory group;
     normalizedDirectory := normalizedDirectory group;
     sessions := sessions group ++ [sessionWithEvents];
     groupLastActivity :=
       if (groupLastActivity group <? lastActivity)%Z then lastActivity
       else groupLastActivity group;
     isCurrentDirectory := isCurrentDirectory group |}.

(** The body of [filteredSessions.forEach]: the group object lives in the
    map and is updated in place, so it keeps its position. *)
Definition addSession (groups : Js.Map SessionDirectoryGroup)
    (sessionWithEvents : SessionWithEvents) : Js.Map SessionDirectoryGroup :=
  let key := normalizedKey sessionWithEvents in
  match Js.get groups key with
  | Some group => Js.set groups key (pushSession group sessionWithEvents)
  | None =>
      let group :=
        {| groupDirectory := rawDirectory sessionWithEvents;
           normalizedDirectory := key;
           sessions := [];
           groupLastActivity := 0;
           isCurrentDirectory := false |} in
      Js.set (Js.set groups key group) key (pushSession group sessionWithEvents)
  end.

Definition markCurrent (normalizedRepositoryPath : option string)
    (group : SessionDirectoryGroup) : SessionDirectoryGroup :=
  {| groupDirectory := groupDirectory group;
     normalizedDirectory := normalizedDirectory group;
     sessions := sessions group;
     groupLastActivity := groupLastActivity group;
     isCurrentDirectory :=
       match normalizedRepositoryPath with
       | None => false
       | Some p => String.eqb (normalizedDirectory group) p
       end |}.

(** ** Vocabulary for stating properties of paths and of the search *)

Definition isSeparator (c : ascii) : bool :=
  Ascii.eqb c "/"%char || Ascii.eqb c "\"%char.

Fixpoint onlySeparators (s : string) : bool :=
  match s with
  | EmptyString => true
  | String c s' => isSeparator c && onlySeparators s'
  end.

Fixpoint endsWithSeparator (s : string) : bool :=
  match s with
  | EmptyString => false
  | String c EmptyString => isSeparator c
  | String _ s' => endsWithSeparator s'
  end.

Fixpoint containsBackslash (s : string) : bool :=
  match s with
  | EmptyString => false
  | String c s' => Ascii.eqb c "\"%char || containsBackslash s'
  end.

(** The characters of a path that are not separators, in order. *)
Fixpoint nonSeparators (s : string) : list ascii :=
  match s with
  | EmptyString => []
  | String c s' => if isSeparator c then nonSeparators s' else c :: nonSeparators s'
  end.

(** Two paths that differ only in the style of their separators (a slash
    where the other has a backslash) or in the separators they end with. *)
Inductive SameUpToSeparators : string -> string -> Prop :=
| same_trailing (t t' : string) :
    onlySeparators t = true -> onlySeparators t' = true -> SameUpToSeparators t t'
| same_char (c : ascii) (s s' : string) :
    SameUpToSeparators s s' -> SameUpToSeparators (String c s) (String c s')
| same_separator (c c' : ascii) (s s' : string) :
    isSeparator c = true -> isSeparator c' = true ->
    SameUpToSeparators s s' -> SameUpToSeparators (String c s) (String c' s').

(** [q] occurs in [text]. *)
Definition isSubstring (q text : string) : Prop :=
  exists pre post, text = String.append pre (String.append q post).

(** The five fields the search looks at, [None] for one that is not there. *)
Definition searchFields (s : SessionWithEvents) : list (option string) :=
  [ customName (session s);
    Some (sessionId (session s));
    Some (workingDirectory (session s));
    toolName <$> latestEvent s;
    latestEvent s ≫= fileName ].

(** The fields that are there and not empty. *)
Definition presentFields (s : SessionWithEvents) : list string :=
  List.filter (fun x => negb (String.eqb x EmptyString)) (omap id (searchFields s)).

(** The session belongs to the group with key [k]. *)
Definition hasKey (k : string) (s : SessionWithEvents) : bool :=
  String.eqb (normalizedKey s) k.

(** The invariant of the [forEach] loop: what the map of groups is once the
    sessions [l] have been gone through. *)
Record Grouped (m : Js.Map SessionDirectoryGroup) (l : list SessionWithEvents) : Prop := {
  grouped_keys : NoDup (map fst m);
  grouped_groups :
    forall k g, In (k, g) m ->
      normalizedDirectory g = k /\
      sessions g = List.filter (hasKey k) l /\
      sessions g <> [];
  grouped_all : forall s, In s l -> In (normalizedKey s) (map fst m);
  grouped_perm : Permutation (concat (map (fun kg => sessions (snd kg)) m)) l;
}.

(** A session passes the status filter. *)
Definition passesStatus (statusFilter : string) (s : SessionWithEvents) : Prop :=
  statusFilter = "all" \/ statusString (status (session s)) = statusFilter.

(** A session passes the free-text filter, for a host's [toLowerCase]: the
    lower-cased query occurs in the lower-cased, space-joined fields. *)
Definition passesSearch (toLowerCase : string -> string) (searchQuery : string)
    (s : SessionWithEvents) : Prop :=
  isSubstring (toLowerCase searchQuery) (toLowerCase (Js.join " " (presentFields s))).

Section Host.

(** [String.prototype.toLowerCase] and [String.prototype.localeCompare]
    belong to the host. *)
Variable toLowerCase : string -> string.
Variable localeCompare : string -> string -> Z.

Definition searchableText (s : SessionWithEvents) : string :=
  toLowerCase
    (Js.join " "
       (Js.filterBoolean
          [ customName (session s);
            Some (sessionId (session s));
            Some (workingDirectory (session s));
            toolName <$> latestEvent s;
            latestEvent s ≫= fileName ])).

Definition filteredSessions (sessions : list SessionWithEvents)
    (statusFilter searchQuery : string) : list SessionWithEvents :=
  let filtered := sessions in
  let filtered :=
    if negb (String.eqb statusFilter "all")
    then List.filter
           (fun s => String.eqb (statusString (status (session s))) statusFilter)
           filtered
    else filtered in
  let filtered :=
    if Js.truthy searchQuery
    then let query := toLowerCase searchQuery in
         List.filter (fun s => Js.includes (searchableText s) query) filtered
    else filtered in
  filtered.

(** The comparator handed to [sortedGroups.sort]. *)
Definition compareGroups (a b : SessionDirectoryGroup) : Z :=
  if isCurrentDirectory a && negb (isCurrentDirectory b) then (-1)%Z
  else if isCurrentDirectory b && negb (isCurrentDirectory a) then 1%Z
  else localeCompare (groupDirectory a) (groupDirectory b).

Definition sessionsByDirectory (filteredSessions : list SessionWithEvents)
    (normalizedRepositoryPath : option string) : list SessionDirectoryGroup :=
  let groups := fold_left addSession filteredSessions [] in
  let sortedGroups := map (markCurrent normalizedRepositoryPath) (Js.values groups) in
  Js.sort compareGroups sortedGroups.

(** The groups the panel renders for a session list, the two filters and
    the scoped repository path. *)
Definition panelGroups (sessions : list SessionWithEvents)
    (statusFilter searchQuery : string) (repositoryPath : option string)
  : list SessionDirectoryGroup :=
  sessionsByDirectory (filteredSessions sessions statusFilter searchQuery)
    (normalizedRepositoryPath repositoryPath).

End Host.

End AgentSessionsPanel.

(* ===================================================================== *)
(** * components/AgentSessionCard.tsx *)
(* ===================================================================== *)

Module AgentSessionCard.
Import SessionTypes.

#[global] Instance TodoStatus_eq_dec : EqDecision TodoStatus.
Proof. solve_decision. Defined.

(** The field of [SessionCardData] that the task display reads. *)
Record SessionCardData := { lastTodos : option (list TodoItem) }.

Definition hasStatus (st : TodoStatus) (t : TodoItem) : bool :=
  bool_decide (status t = st).

(** [cardData.lastTodos && cardData.lastTodos.length > 0] *)
Definition hasTodos (cardData : SessionCardData) : bool :=
  match lastTodos cardData with
  | Some todos => 0 <? length todos
  | None => false
  end.

Definition getTodoToShow (cardData : SessionCardData) : option TodoItem :=
  match lastTodos cardData with
  | None => None
  | Some todos =>
      if negb (hasTodos cardData) then None
      else
        match List.find (hasStatus in_progress) todos with
        | Some inProgress => Some inProgress
        | None =>
            let pending := List.filter (hasStatus SessionTypes.pending) todos in
            if 0 <? length pending then pending !! 0
            else
              let completed := List.filter (hasStatus SessionTypes.completed) todos in
              match length completed with
              | 0 => None
              | S n => completed !! n
              end
        end
  end.

(** The item the specification singles out as the current task of a todo
    list: the first in-progress item; without one, the first pending item;
    without one of those either, the last completed item. *)
Inductive CurrentTask (todos : list TodoItem) (t : TodoItem) : Prop :=
| task_in_progress (before after : list TodoItem) :
    todos = before ++ t :: after ->
    status t = in_progress ->
    Forall (fun x => status x <> in_progress) before ->
    CurrentTask todos t
| task_first_pending (before after : list TodoItem) :
    todos = before ++ t :: after ->
    status t = SessionTypes.pending ->
    Forall (fun x => status x <> in_progress) todos ->
    Forall (fun x => status x <> SessionTypes.pending) before ->
    CurrentTask todos t
| task_last_completed (before after : list TodoItem) :
    todos = before ++ t :: after ->
    status t = SessionTypes.completed ->
    Forall (fun x => status x <> in_progress) todos ->
    Forall (fun x => status x <> SessionTypes.pending) todos ->
    Forall (fun x => status x <> SessionTypes.completed) after ->
    CurrentTask todos t.

End AgentSessionCard.

(* ===================================================================== *)
(** * Sample data *)
(* ===================================================================== *)

Module Samples.

(** An event of the repository at [repoRoot]. *)
Definition eventIn (repoRoot : string) : AgentEventsPanel.AgentEvent :=
  {| AgentEventsPanel.eventType := "pre-tool-use";
     AgentEventsPanel.sessionId := "session-1";
     AgentEventsPanel.toolName := Some "Read";
     AgentEventsPanel.repository :=
       Some {| AgentEventsPanel.root := repoRoot;
               AgentEventsPanel.owner := "principal-ade";
               AgentEventsPanel.repo := "panels" |};
     AgentEventsPanel.workingDirectory := Some repoRoot |}.

(** Events numbered [0 .. n-1] by the clock reading they are received at. *)
Definition numbered (n : nat) : list (AgentEventsPanel.PanelEvent * Z) :=
  map (fun i => ({| AgentEventsPanel.payload := Some (eventIn "/repo") |}, Z.of_nat i))
      (seq 0 n).

Definition sessionAt (sessionId directory : string)
    (status : AgentSessionsPanel.SessionStatus) (customName : option string)
  : AgentSessionsPanel.SessionWithEvents :=
  {| AgentSessionsPanel.session :=
       {| AgentSessionsPanel.sessionId := sessionId;
          AgentSessionsPanel.directory := directory;
          AgentSessionsPanel.workingDirectory := directory;
          AgentSessionsPanel.lastActivity := Some 1700000000000%Z;
          AgentSessionsPanel.customName := customName;
          AgentSessionsPanel.status := status |};
     AgentSessionsPanel.latestEvent :=
       Some {| AgentSessionsPanel.toolName := "Edit";
               AgentSessionsPanel.timestamp := 1700000000000%Z;
               AgentSessionsPanel.fileName := Some "README.md" |};
     AgentSessionsPanel.lastTodos := None |}.

Definition sessionA := sessionAt "a" "/repo" AgentSessionsPanel.active None.
Definition sessionB := sessionAt "b" "/repo" AgentSessionsPanel.idle (Some "Build").
Definition sessionC := sessionAt "c" "/work/zeta/" AgentSessionsPanel.active None.
Definition sessionD := sessionAt "d" "\work\alpha" AgentSessionsPanel.active None.
Definition sessionE := sessionAt "e" "/repo/" AgentSessionsPanel.active None.

Definition sampleSessions : list AgentSessionsPanel.SessionWithEvents :=
  [sessionC; sessionA; sessionD; sessionB; sessionE].

Definition todo (id : string) (status : SessionTypes.TodoStatus) : SessionTypes.TodoItem :=
  {| SessionTypes.id := id;
     SessionTypes.content := id;
     SessionTypes.status := status;
     SessionTypes.timestamp := 0%Z |}.

End Samples.

(* ===================================================================== *)
(** * What the events panel renders (panels/AgentEventsPanel.tsx) *)
(* ===================================================================== *)

Module AgentEventsView.
Import AgentEventsPanel.

(** [types.add(t)] on a [Set<string>], kept in insertion order. *)
Definition setAdd (types : list string) (t : string) : list string :=
  if bool_decide (t ∈ types) then types else types ++ [t].

(** [availableEventTypes]: the event types of the buffer, collected in a
    [Set] and sorted by [Array.prototype.sort] without a comparator, which
    orders strings by their code units. *)
Definition availableEventTypes (st : PanelState) : list string :=
  let types :=
    fold_left (fun types entry => setAdd types (eventType (event entry))) (events st) [] in
  Js.sort Js.compareCodeUnits types.

(** The state of a filter chip:
    [selectedEventTypes.has(eventType) || selectedEventTypes.size === 0]. *)
Definition isSelected (st : PanelState) (eventType : string) : bool :=
  bool_decide (eventType ∈ selectedEventTypes st)
  || bool_decide (size (selectedEventTypes st) = 0).

(** The count badge reads [' (max)'] after the number:
    [filteredEvents.length === MAX_EVENTS]. *)
Definition showsMax (st : PanelState) : bool :=
  length (filteredEvents st) =? MAX_EVENTS.

(** [expandedEvents.has(entry.localIndex)] *)
Definition isExpanded (st : PanelState) (entry : EventEntry) : bool :=
  bool_decide (localIndex entry ∈ expandedEvents st).

(** What the rendered panel lets happen: a row is toggled by a click on it,
    so only rows of [filteredEvents] are; a chip exists for the available
    event types only; the clear button is disabled on an empty buffer.
    Receipts and scope changes come from the host at any time. *)
Definition fromUI (st : PanelState) (a : Action) : Prop :=
  match a with
  | ToggleExpanded index => In index (map localIndex (filteredEvents st))
  | ToggleEventTypeFilter eventType => In eventType (availableEventTypes st)
  | ClearEvents => events st <> []
  | _ => True
  end.

Fixpoint uiRun (st : PanelState) (acts : list Action) : Prop :=
  match acts with
  | [] => True
  | a :: rest => fromUI st a /\ uiRun (step st a) rest
  end.

End AgentEventsView.

(* ===================================================================== *)
(** * What the sessions panel renders (panels/AgentSessionsPanel.tsx) *)
(* ===================================================================== *)

Module AgentSessionsView.
Import AgentSessionsPanel.

(** [filteredSessions.forEach((session, index) =>
      map.set(session.session.sessionId, getSessionColor(index)))],
    from index [index] on. *)
Fixpoint colorsFrom (index : nat) (filteredSessions : list SessionWithEvents)
    (map : Js.Map (option string)) : Js.Map (option string) :=
  match filteredSessions with
  | [] => map
  | s :: rest =>
      colorsFrom (S index) rest
        (Js.set map (sessionId (session s)) (SessionTypes.getSessionColor (Z.of_nat index)))
  end.

Definition sessionColorMap (filteredSessions : list SessionWithEvents)
  : Js.Map (option string) :=
  colorsFrom 0 filteredSessions [].

(** [sessionColorMap.get(sessionId) || getSessionColor(0)] *)
Definition sessionColor (map : Js.Map (option string)) (s : SessionWithEvents)
  : option string :=
  Js.orOpt (mjoin (Js.get map (sessionId (session s)))) (SessionTypes.getSessionColor 0).

(** [s.split('/')]: the pieces between the slashes, empty ones included. *)
Fixpoint splitSlash (s : string) : list string :=
  match s with
  | EmptyString => [EmptyString]
  | String c s' =>
      if Ascii.eqb c "/"%char then EmptyString :: splitSlash s'
      else match splitSlash s' with
           | piece :: pieces => String c piece :: pieces
           | [] => [String c EmptyString]
           end
  end.

(** [directory.replace(/\\/g, '/').split('/').filter(Boolean)] *)
Definition pathSegments (directory : string) : list string :=
  List.filter Js.truthy (splitSlash (replaceBackslashes directory)).

(** The name on a group's header, for the directory of the group. *)
Definition directoryNameOf (directory : string) : string :=
  if String.eqb directory UNKNOWN_DIRECTORY_LABEL then UNKNOWN_DIRECTORY_LABEL
  else
    let pathSegments := pathSegments directory in
    let lastSegment :=
      match length pathSegments with
      | 0 => None
      | S n => pathSegments !! n
      end in
    match Js.orOpt lastSegment (Some directory) with
    | Some name => name
    | None => directory
    end.

Definition directoryName (group : SessionDirectoryGroup) : string :=
  directoryNameOf (groupDirectory group).

(** [sessionsByDirectory.length > 1 || !group.isCurrentDirectory] *)
Definition shouldShowDirectoryHeader (sessionsByDirectory : list SessionDirectoryGroup)
    (group : SessionDirectoryGroup) : bool :=
  (1 <? length sessionsByDirectory) || negb (isCurrentDirectory group).

(** [getTimeAgo]; [now] is the reading of [Date.now()], both times whole
    milliseconds ([Math.floor] of the quotient is then the integer quotient
    as long as the times are less than 2^52 apart), and a number is printed
    in decimal. *)
Definition getTimeAgo (now timestamp : Z) : string :=
  let seconds := ((now - timestamp) / 1000)%Z in
  if (seconds <? 60)%Z then "just now"
  else if (seconds <? 3600)%Z then String.append (pretty (seconds / 60)%Z) "m ago"
  else if (seconds <? 86400)%Z then String.append (pretty (seconds / 3600)%Z) "h ago"
  else String.append (pretty (seconds / 86400)%Z) "d ago".

(** The latest activity among sessions, as the loop keeps it: it starts at
    0 and is replaced by anything greater. *)
Definition activityOf (s : SessionWithEvents) : Z :=
  default 0%Z (lastActivity (session s)).

(** The activity a group carries is the running maximum of [0] and its
    members' activity. *)
Definition ActivityKept (g : SessionDirectoryGroup) : Prop :=
  (0 <= groupLastActivity g)%Z /\
  (forall s, In s (sessions g) -> (activityOf s <= groupLastActivity g)%Z) /\
  (groupLastActivity g = 0%Z \/
   exists s, In s (sessions g) /\ activityOf s = groupLastActivity g).

(** A group is labelled with the directory of its first member. *)
Definition LabelledByFirst (g : SessionDirectoryGroup) : Prop :=
  exists s0 rest, sessions g = s0 :: rest /\ groupDirectory g = rawDirectory s0.

Fixpoint containsSeparator (s : string) : bool :=
  match s with
  | EmptyString => false
  | String c s' => isSeparator c || containsSeparator s'
  end.

End AgentSessionsView.

(* ===================================================================== *)
(** * The task list of a card (components/AgentSessionCard.tsx) *)
(* ===================================================================== *)

Module AgentSessionCardView.
Import SessionTypes AgentSessionCard.

(** The rows of the expanded task list:
    [[...in_progress, ...pending, ...completed]]. *)
Definition orderedTodos (lastTodos : list TodoItem) : list TodoItem :=
  List.filter (hasStatus in_progress) lastTodos
  ++ List.filter (hasStatus pending) lastTodos
  ++ List.filter (hasStatus completed) lastTodos.

(** The place of a status in that list. *)
Definition statusRank (st : TodoStatus) : nat :=
  match st with
  | in_progress => 0
  | pending => 1
  | completed => 2
  end.

End AgentSessionCardView.

(* ===================================================================== *)
(** * More sample data *)
(* ===================================================================== *)

Module ViewSamples.
Import Samples.

(** A notification from the same repository. *)
Definition notification : AgentEventsPanel.AgentEvent :=
  {| AgentEventsPanel.eventType := "notification";
     AgentEventsPanel.sessionId := "session-1";
     AgentEventsPanel.toolName := None;
     AgentEventsPanel.repository := None;
     AgentEventsPanel.workingDirectory := Some "/repo" |}.

(** Three events arrive, the second row is clicked, the buffer is cleared. *)
Definition clickAndClear : list AgentEventsPanel.Action :=
  map (fun '(pe, now) => AgentEventsPanel.Received pe now) (numbered 3)
  ++ [AgentEventsPanel.ToggleExpanded 1; AgentEventsPanel.ClearEvents].

(** A panel showing tool events only. *)
Definition toolEventsOnly : AgentEventsPanel.PanelState :=
  {| AgentEventsPanel.events :=
       [{| AgentEventsPanel.event := eventIn "/repo";
           AgentEventsPanel.timestamp := 5%Z;
           AgentEventsPanel.localIndex := 0 |}];
     AgentEventsPanel.expandedEvents := {[0]};
     AgentEventsPanel.filterByRepo := true;
     AgentEventsPanel.selectedEventTypes := {["pre-tool-use"]};
     AgentEventsPanel.autoScroll := true;
     AgentEventsPanel.eventCounterRef := 1;
     AgentEventsPanel.repositoryPath := Some "/repo" |}.

(** The session ["a"] is listed twice. *)
Definition listedTwice : list AgentSessionsPanel.SessionWithEvents :=
  [sessionA; sessionB; sessionC; sessionAt "a" "/repo" AgentSessionsPanel.idle None].

End ViewSamples.

(* ===================================================================== *)
(** * The order of the groups (panels/AgentSessionsPanel.tsx) *)
(* ===================================================================== *)

Module AgentSessionsOrder.
Import AgentSessionsPanel.

(** [sortedGroups] as [Array.from(groups.values()).map(...)] makes it, before
    [sortedGroups.sort(...)] runs: the groups in the order the [Map] holds
    them. *)
Definition groupsBeforeSort (filteredSessions : list SessionWithEvents)
    (normalizedRepositoryPath : option string) : list SessionDirectoryGroup :=
  map (markCurrent normalizedRepositoryPath)
      (Js.values (fold_left addSession filteredSessions [])).

(** [x] stands before [y] in [l]. *)
Definition Before {A} (x y : A) (l : list A) : Prop := [x; y] `sublist_of` l.

(** The keys in the order in which each of them occurs first. *)
Definition firstOccurrences (keys : list string) : list string :=
  fold_left (fun seen k => if bool_decide (k ∈ seen) then seen else seen ++ [k]) keys [].

(** A second host for examples, whose collation ignores the case of the
    ASCII letters, as the collation of a locale does before anything else:
    it puts ["alpha"] before ["Beta"], which the order of the code units
    does not. *)
Definition compareIgnoringCase (a b : string) : Z :=
  Js.compareCodeUnits (Js.toLowerCaseAscii a) (Js.toLowerCaseAscii b).

(** Two directories whose last segments are in the opposite order. *)
Definition sessionF := Samples.sessionAt "f" "/z/alpha" active None.
Definition sessionG := Samples.sessionAt "g" "/a/zeta" active None.

(** Two directories that differ in the case of a letter. *)
Definition sessionH := Samples.sessionAt "h" "/work/Beta" active None.
Definition sessionI := Samples.sessionAt "i" "/work/alpha" active None.

End AgentSessionsOrder.

(* ===================================================================== *)
(** * Properties of the events panel *)
(* ===================================================================== *)

Section EventsPanelProperties.
Import AgentEventsPanel.

(** ** [slice(-n)] *)

Lemma length_sliceLast {A} (n : nat) (l : list A) :
  length (Js.sliceLast n l) = Nat.min n (length l).
Proof. unfold Js.sliceLast. rewrite length_drop. lia. Qed.

Lemma sliceLast_short {A} (n : nat) (l : list A) :
  length l <= n -> Js.sliceLast n l = l.
Proof.
  intros Hle. unfold Js.sliceLast.
  replace (length l - n) with 0 by lia. apply drop_0.
Qed.

Lemma sliceLast_app_sliceLast {A} (n : nat) (l k : list A) :
  Js.sliceLast n (Js.sliceLast n l ++ k) = Js.sliceLast n (l ++ k).
Proof.
  unfold Js.sliceLast.
  rewrite !length_app, length_drop.
  set (d := length l - n).
  rewrite (drop_app l k (length l + length k - n)).
  rewrite (drop_app (drop d l) k), length_drop, drop_drop.
  destruct (decide (length l <= n)) as [Hle|Hgt].
  - replace d with 0 by (unfold d; lia). f_equal; f_equal; lia.
  - assert (Hd : d = length l - n) by reflexivity.
    f_equal; f_equal; lia.
Qed.

Lemma map_sliceLast {A B} (f : A -> B) (n : nat) (l : list A) :
  map f (Js.sliceLast n l) = Js.sliceLast n (map f l).
Proof. unfold Js.sliceLast. now rewrite length_map, skipn_map. Qed.

(** ** The updater of [setEvents] *)

Lemma appendEntry_sliceLast (prev : list EventEntry) (e : EventEntry) :
  appendEntry prev e = Js.sliceLast MAX_EVENTS (prev ++ [e]).
Proof.
  unfold appendEntry.
  destruct (Nat.ltb_spec MAX_EVENTS (length (prev ++ [e]))) as [Hlt|Hge]; [reflexivity|].
  now rewrite sliceLast_short.
Qed.

Lemma length_appendEntry (prev : list EventEntry) (e : EventEntry) :
  length (appendEntry prev e) <= MAX_EVENTS.
Proof. rewrite appendEntry_sliceLast, length_sliceLast. lia. Qed.

(** ** The handler *)

Lemma accepted_payload (st : PanelState) (pe : PanelEvent) (ev : AgentEvent) :
  accepted st pe = Some ev -> payload pe = Some ev.
Proof.
  unfold accepted. destruct (payload pe) as [a|]; [|discriminate].
  repeat case_match; congruence.
Qed.

Lemma received_accepted (st : PanelState) (pe : PanelEvent) (now : Z) (ev : AgentEvent) :
  accepted st pe = Some ev ->
  onAgentEventReceived st pe now =
    {| events := appendEntry (events st)
                   {| event := ev; timestamp := now; localIndex := eventCounterRef st |};
       expandedEvents := expandedEvents st;
       filterByRepo := filterByRepo st;
       selectedEventTypes := selectedEventTypes st;
       autoScroll := autoScroll st;
       eventCounterRef := S (eventCounterRef st);
       repositoryPath := repositoryPath st |}.
Proof. intros Hacc. unfold onAgentEventReceived. now rewrite Hacc. Qed.

Lemma received_dropped (st : PanelState) (pe : PanelEvent) (now : Z) :
  accepted st pe = None -> onAgentEventReceived st pe now = st.
Proof. intros Hacc. unfold onAgentEventReceived. now rewrite Hacc. Qed.

(** The guard reads the repo filter and the scoped path, nothing else. *)
Lemma accepted_ext (st st' : PanelState) (pe : PanelEvent) :
  filterByRepo st' = filterByRepo st ->
  repositoryPath st' = repositoryPath st ->
  accepted st' pe = accepted st pe.
Proof. intros Hf Hp. unfold accepted. now rewrite Hf, Hp. Qed.

Lemma received_filter_settings (st : PanelState) (pe : PanelEvent) (now : Z) :
  filterByRepo (onAgentEventReceived st pe now) = filterByRepo st /\
  repositoryPath (onAgentEventReceived st pe now) = repositoryPath st.
Proof. unfold onAgentEventReceived. now destruct (accepted st pe). Qed.

Lemma acceptedEvents_ext (st st' : PanelState) (batch : list (PanelEvent * Z)) :
  filterByRepo st' = filterByRepo st ->
  repositoryPath st' = repositoryPath st ->
  acceptedEvents st' batch = acceptedEvents st batch.
Proof.
  intros Hf Hp. unfold acceptedEvents.
  induction batch as [|[pe now] batch IHb]; [reflexivity|].
  cbn [omap list_omap]. rewrite (accepted_ext st st' pe Hf Hp).
  destruct (accepted st pe); [f_equal|]; exact IHb.
Qed.

Lemma receiveAll_events (st : PanelState) (batch : list (PanelEvent * Z)) :
  length (events st) <= MAX_EVENTS ->
  map event (events (receiveAll st batch)) =
    Js.sliceLast MAX_EVENTS (map event (events st) ++ acceptedEvents st batch).
Proof.
  revert st. induction batch as [|[pe now] batch IH]; intros st Hlen.
  - simpl. unfold acceptedEvents. simpl. rewrite app_nil_r.
    now rewrite sliceLast_short by (rewrite length_map; exact Hlen).
  - change (receiveAll st ((pe, now) :: batch))
      with (receiveAll (onAgentEventReceived st pe now) batch).
    pose proof (received_filter_settings st pe now) as [Hf Hp].
    pose proof (acceptedEvents_ext st (onAgentEventReceived st pe now) batch Hf Hp)
      as Hacc.
    destruct (accepted st pe) as [ev|] eqn:Hev.
    + rewrite IH.
      2:{ rewrite (received_accepted _ _ _ _ Hev). simpl. apply length_appendEntry. }
      rewrite Hacc. rewrite (received_accepted _ _ _ _ Hev). simpl events.
      rewrite appendEntry_sliceLast, map_sliceLast, map_app. simpl map.
      rewrite sliceLast_app_sliceLast.
      unfold acceptedEvents at 2. simpl omap. rewrite Hev. simpl.
      now rewrite <- app_assoc.
    + rewrite IH by (now rewrite (received_dropped _ _ _ Hev)).
      rewrite Hacc, (received_dropped _ _ _ Hev).
      unfold acceptedEvents at 2. simpl omap. now rewrite Hev.
Qed.

(** The same along any run without a clear, whatever toggles and scope
    changes come between the receipts: the buffer is the last [MAX_EVENTS]
    of what it held followed by the entries created since. *)
Lemma run_events_window (st : PanelState) (acts : list Action) :
  length (events st) <= MAX_EVENTS ->
  Forall (fun a => a <> ClearEvents) acts ->
  events (run st acts) = Js.sliceLast MAX_EVENTS (events st ++ created st acts).
Proof.
  revert st. induction acts as [|a acts IH]; intros st Hlen Hacts.
  - simpl. rewrite app_nil_r. now rewrite sliceLast_short.
  - apply Forall_cons in Hacts as [Ha Hacts].
    change (run st (a :: acts)) with (run (step st a) acts).
    cbn [created]. rewrite app_assoc.
    destruct a; try congruence; simpl step;
      try (rewrite app_nil_r;
           match goal with |- events (run ?s _) = _ => exact (IH s Hlen Hacts) end).
    destruct (accepted st panelEvent) as [ev|] eqn:Hev.
    + rewrite (received_accepted _ _ _ _ Hev).
      rewrite IH; [|simpl; apply length_appendEntry|exact Hacts].
      simpl events. simpl eventCounterRef.
      now rewrite appendEntry_sliceLast, sliceLast_app_sliceLast.
    + rewrite (received_dropped _ _ _ Hev), app_nil_r. now apply IH.
Qed.

(** C1. Whatever events are received, the buffer never holds more than
    [MAX_EVENTS] = 500 entries, and it holds the most recently received
    events (those that got past the receipt guard), in order of receipt:
    the last 500 of what was buffered before followed by what was received.
    Once more than 500 have been received it holds exactly the last 500,
    the oldest having been dropped.  A single append obeys the same bound
    from any buffer, and toggles or scope changes between the receipts
    change nothing to it. *)
Theorem events_buffer_keeps_most_recent (st : PanelState) (batch : list (PanelEvent * Z)) :
  length (events st) <= MAX_EVENTS ->
  MAX_EVENTS = 500 /\
  (forall prev e, length (appendEntry prev e) <= 500 /\
                  appendEntry prev e = drop (length (prev ++ [e]) - 500) (prev ++ [e])) /\
  length (events (receiveAll st batch)) <= 500 /\
  map event (events (receiveAll st batch)) =
    Js.sliceLast 500 (map event (events st) ++ acceptedEvents st batch) /\
  (500 < length (map event (events st) ++ acceptedEvents st batch) ->
   length (events (receiveAll st batch)) = 500 /\
   map event (events (receiveAll st batch)) =
     drop (length (map event (events st) ++ acceptedEvents st batch) - 500)
          (map event (events st) ++ acceptedEvents st batch)) /\
  (forall acts, Forall (fun a => a <> ClearEvents) acts ->
     length (events (run st acts)) <= 500 /\
     events (run st acts) = Js.sliceLast 500 (events st ++ created st acts)).
Proof.
  intros Hlen.
  pose proof (receiveAll_events st batch Hlen) as Hbuf.
  assert (Hmax : MAX_EVENTS = 500) by reflexivity.
  assert (Hl : length (events (receiveAll st batch))
               = Nat.min MAX_EVENTS
                   (length (map event (events st) ++ acceptedEvents st batch))).
  { rewrite <- (length_map event), Hbuf. apply length_sliceLast. }
  rewrite <- Hmax.
  split; [reflexivity|]. split.
  { intros prev e. split; [apply length_appendEntry|apply appendEntry_sliceLast]. }
  split; [lia|]. split; [exact Hbuf|].
  split; [intros Hgt; split; [lia|exact Hbuf]|].
  intros acts Hacts. pose proof (run_events_window st acts Hlen Hacts) as Hrun.
  split; [|exact Hrun]. rewrite Hrun, length_sliceLast. lia.
Qed.

(** ** Sequence numbers *)

Lemma step_counter_mono (st : PanelState) (a : Action) :
  eventCounterRef st <= eventCounterRef (step st a).
Proof.
  destruct a; simpl; try lia.
  unfold onAgentEventReceived. destruct (accepted st panelEvent); simpl; lia.
Qed.

Lemma run_counter_mono (st : PanelState) (acts : list Action) :
  eventCounterRef st <= eventCounterRef (run st acts).
Proof.
  revert st. induction acts as [|a acts IH]; intros st; [apply Nat.le_refl|].
  change (run st (a :: acts)) with (run (step st a) acts).
  pose proof (step_counter_mono st a). pose proof (IH (step st a)). lia.
Qed.

(** The numbers handed out along a run are consecutive, starting at the
    counter. *)
Lemma created_localIndex (st : PanelState) (acts : list Action) :
  map localIndex (created st acts) =
    seq (eventCounterRef st) (eventCounterRef (run st acts) - eventCounterRef st).
Proof.
  revert st. induction acts as [|a acts IH]; intros st.
  - simpl. now rewrite Nat.sub_diag.
  - change (run st (a :: acts)) with (run (step st a) acts).
    pose proof (run_counter_mono (step st a) acts) as Hmono.
    cbn [created]. rewrite map_app, IH.
    destruct a; simpl step in *;
      try (simpl; reflexivity).
    destruct (accepted st panelEvent) as [ev|] eqn:Hev.
    + rewrite (received_accepted _ _ _ _ Hev) in *. simpl eventCounterRef in *.
      simpl map.
      replace (eventCounterRef (run _ acts) - eventCounterRef st)
        with (S (eventCounterRef
                   (run {| events := appendEntry (events st)
                             {| event := ev; timestamp := now;
                                localIndex := eventCounterRef st |};
                           expandedEvents := expandedEvents st;
                           filterByRepo := filterByRepo st;
                           selectedEventTypes := selectedEventTypes st;
                           autoScroll := autoScroll st;
                           eventCounterRef := S (eventCounterRef st);
                           repositoryPath := repositoryPath st |} acts)
                 - S (eventCounterRef st))) by lia.
      reflexivity.
    + rewrite (received_dropped _ _ _ Hev). reflexivity.
Qed.

(** The buffer only ever holds entries the handler created, in the order
    it created them. *)
Lemma run_events_sublist (st : PanelState) (acts : list Action) :
  events (run st acts) `sublist_of` events st ++ created st acts.
Proof.
  revert st. induction acts as [|a acts IH]; intros st.
  - simpl. now rewrite app_nil_r.
  - change (run st (a :: acts)) with (run (step st a) acts).
    cbn [created]. etransitivity; [apply IH|].
    rewrite app_assoc. apply sublist_app; [|reflexivity].
    destruct a; simpl step; try (rewrite app_nil_r; reflexivity).
    + destruct (accepted st panelEvent) as [ev|] eqn:Hev.
      * rewrite (received_accepted _ _ _ _ Hev). simpl events.
        rewrite appendEntry_sliceLast. apply sublist_drop.
      * rewrite (received_dropped _ _ _ Hev), app_nil_r. reflexivity.
    + simpl. apply sublist_nil_l.
Qed.

Lemma seq_StronglySorted (start len : nat) : StronglySorted lt (seq start len).
Proof.
  revert start. induction len as [|len IH]; intros start; simpl; constructor.
  - apply IH.
  - apply Forall_forall. intros x Hx. apply elem_of_seq in Hx. lia.
Qed.

Lemma StronglySorted_sublist {A} (R : A -> A -> Prop) (l k : list A) :
  l `sublist_of` k -> StronglySorted R k -> StronglySorted R l.
Proof.
  induction 1 as [|x l k Hs IH|x l k Hs IH]; intros Hk.
  - constructor.
  - apply StronglySorted_inv in Hk as [Hk Hx]. constructor; [now apply IH|].
    apply Forall_forall. intros y Hy.
    eapply (proj1 (Forall_forall _ _) Hx), elem_of_sublist; eassumption.
  - apply StronglySorted_inv in Hk as [Hk _]. now apply IH.
Qed.

(** C4. Over the lifetime of a panel instance (any sequence of receipts,
    clears, toggles and scope changes after mount) the sequence numbers
    handed out at receipt are 0, 1, 2, ... in order of receipt, each one
    once, clears included; the buffer holds created entries in the order of
    their creation, so its [localIndex]es are strictly increasing; and the
    number an entry gets is the counter at receipt, whatever the payload
    of the event is. *)
Theorem localIndex_increasing_never_reused
    (scope : option string) (acts : list Action) :
  map localIndex (created (initialState scope) acts) =
    seq 0 (eventCounterRef (run (initialState scope) acts)) /\
  NoDup (map localIndex (created (initialState scope) acts)) /\
  StronglySorted lt (map localIndex (created (initialState scope) acts)) /\
  events (run (initialState scope) acts) `sublist_of` created (initialState scope) acts /\
  StronglySorted lt (map localIndex (events (run (initialState scope) acts))) /\
  Forall (fun e => localIndex e < eventCounterRef (run (initialState scope) acts))
    (events (run (initialState scope) acts)) /\
  (forall st pe now ev pe' now' ev',
      accepted st pe = Some ev -> accepted st pe' = Some ev' ->
      created st [Received pe now] =
        [{| event := ev; timestamp := now; localIndex := eventCounterRef st |}] /\
      map localIndex (events (onAgentEventReceived st pe now)) =
        map localIndex (events (onAgentEventReceived st pe' now')) /\
      eventCounterRef (onAgentEventReceived st pe now) = S (eventCounterRef st)) /\
  (forall st, eventCounterRef (clearEvents st) = eventCounterRef st).
Proof.
  pose proof (created_localIndex (initialState scope) acts) as Hseq.
  simpl eventCounterRef in Hseq at 1 3. rewrite Nat.sub_0_r in Hseq.
  pose proof (run_events_sublist (initialState scope) acts) as Hsub.
  simpl events in Hsub at 2. simpl app in Hsub.
  assert (Hsubi : map localIndex (events (run (initialState scope) acts))
                  `sublist_of` seq 0 (eventCounterRef (run (initialState scope) acts))).
  { rewrite <- Hseq. apply (fmap_sublist localIndex), Hsub. }
  split; [exact Hseq|]. split; [rewrite Hseq; apply NoDup_ListNoDup, seq_NoDup|].
  split; [rewrite Hseq; apply seq_StronglySorted|].
  split; [exact Hsub|].
  split; [eapply StronglySorted_sublist; [exact Hsubi|apply seq_StronglySorted]|].
  split.
  { apply Forall_forall. intros e He.
    assert (Hin : localIndex e ∈ seq 0 (eventCounterRef (run (initialState scope) acts))).
    { eapply elem_of_sublist; [|exact Hsubi].
      apply list_elem_of_In, in_map, list_elem_of_In, He. }
    apply elem_of_seq in Hin. lia. }
  split; [|reflexivity].
  intros st pe now ev pe' now' ev' Hev Hev'.
  split; [simpl; now rewrite Hev|].
  rewrite (received_accepted _ _ now _ Hev), (received_accepted _ _ now' _ Hev').
  simpl. split; [|reflexivity].
  rewrite !appendEntry_sliceLast, !map_sliceLast, !map_app. reflexivity.
Qed.

(** ** Expansion state *)

Lemma toggle_toggle `{Countable K} (S : gset K) (x : K) : toggle (toggle S x) x = S.
Proof.
  unfold toggle. destruct (decide (x ∈ S)) as [Hin|Hnin].
  - rewrite decide_False by set_solver.
    apply set_eq. intros y. destruct (decide (y = x)); set_solver.
  - rewrite decide_True by set_solver. set_solver.
Qed.

(** C8. One toggle of [N] removes [N] from the expansion set when it is
    there and inserts it when it is not, leaving every other number as it
    was; two toggles of [N] give back the expansion set, and the panel
    state, they started from. *)
Theorem toggleExpanded_twice (st : PanelState) (N : nat) :
  (N ∈ expandedEvents st ->
   expandedEvents (toggleExpanded st N) = expandedEvents st ∖ {[N]} /\
   N ∉ expandedEvents (toggleExpanded st N)) /\
  (N ∉ expandedEvents st ->
   expandedEvents (toggleExpanded st N) = expandedEvents st ∪ {[N]} /\
   N ∈ expandedEvents (toggleExpanded st N)) /\
  (forall M, M <> N -> M ∈ expandedEvents (toggleExpanded st N) <-> M ∈ expandedEvents st) /\
  expandedEvents (toggleExpanded (toggleExpanded st N) N) = expandedEvents st /\
  toggleExpanded (toggleExpanded st N) N = st.
Proof.
  assert (Hset : toggle (toggle (expandedEvents st) N) N = expandedEvents st)
    by apply toggle_toggle.
  repeat split.
  - simpl. unfold toggle. now rewrite decide_True.
  - simpl. unfold toggle. rewrite decide_True by assumption. set_solver.
  - simpl. unfold toggle. now rewrite decide_False.
  - simpl. unfold toggle. rewrite decide_False by assumption. set_solver.
  - simpl. unfold toggle. case_decide; set_solver.
  - simpl. unfold toggle. case_decide; set_solver.
  - exact Hset.
  - destruct st. unfold toggleExpanded. simpl in *. now rewrite Hset.
Qed.

(** ** The repository filter *)

Lemma strictEq_true (a b : option string) : Js.strictEq a b = true <-> a = b.
Proof.
  destruct a as [x|], b as [y|]; simpl; try (split; congruence).
  rewrite String.eqb_eq. split; congruence.
Qed.

Lemma eventRepoPath_root (ev : AgentEvent) (r : RepositoryInfo) :
  repository ev = Some r -> root r <> EmptyString -> eventRepoPath ev = Some (root r).
Proof.
  intros Hr Hne. unfold eventRepoPath, Js.orOpt. rewrite Hr. simpl.
  destruct (root r); [congruence|reflexivity].
Qed.

Lemma eventRepoPath_no_root (ev : AgentEvent) :
  (repository ev = None \/ exists r, repository ev = Some r /\ root r = EmptyString) ->
  eventRepoPath ev = workingDirectory ev.
Proof.
  intros [Hr|(r & Hr & He)]; unfold eventRepoPath, Js.orOpt; rewrite Hr; simpl;
    [reflexivity|now rewrite He].
Qed.

Lemma accepted_foreign (st : PanelState) (pe : PanelEvent) (ev : AgentEvent) (p : string) :
  filterByRepo st = true -> repositoryPath st = Some p -> p <> EmptyString ->
  payload pe = Some ev -> eventRepoPath ev <> Some p ->
  accepted st pe = None.
Proof.
  intros Hf Hp Hne Hpe Hdiff. unfold accepted. rewrite Hpe, Hf, Hp. simpl.
  destruct p; [congruence|]. simpl.
  destruct (Js.strictEq (eventRepoPath ev) (Some (String a p))) eqn:Heq; [|reflexivity].
  apply strictEq_true in Heq. contradiction.
Qed.

(** C10. With the repository filter on and a repository path in scope, an
    event whose repository root (or, when it has no root, whose working
    directory) is not the scoped path is dropped at receipt: the handler
    returns the state it was given, buffer and counter included, so no
    later action, disabling the repository filter among them, behaves
    otherwise than if the event had never been received. *)
Theorem foreign_event_dropped_at_receipt
    (st : PanelState) (pe : PanelEvent) (now : Z) (ev : AgentEvent) (p : string) :
  filterByRepo st = true ->
  repositoryPath st = Some p ->
  p <> EmptyString ->
  payload pe = Some ev ->
  eventRepoPath ev <> Some p ->
  eventRepoPath ev =
    match repository ev with
    | Some r => if Js.truthy (root r) then Some (root r) else workingDirectory ev
    | None => workingDirectory ev
    end /\
  events (onAgentEventReceived st pe now) = events st /\
  onAgentEventReceived st pe now = st /\
  filteredEvents (toggleFilterByRepo (onAgentEventReceived st pe now)) =
    filteredEvents (toggleFilterByRepo st) /\
  events (toggleFilterByRepo (onAgentEventReceived st pe now)) = events st /\
  (forall acts, run st (Received pe now :: acts) = run st acts) /\
  (forall acts, created st (Received pe now :: acts) = created st acts).
Proof.
  intros Hf Hp Hne Hpe Hdiff.
  pose proof (accepted_foreign st pe ev p Hf Hp Hne Hpe Hdiff) as Hacc.
  pose proof (received_dropped st pe now Hacc) as Hst.
  rewrite Hst. split; [unfold eventRepoPath; now destruct (repository ev)|].
  repeat split; try reflexivity.
  - intros acts. change (run st (Received pe now :: acts))
      with (run (onAgentEventReceived st pe now) acts). now rewrite Hst.
  - intros acts. cbn [created]. rewrite Hacc. simpl step. now rewrite Hst.
Qed.

End EventsPanelProperties.

(* ===================================================================== *)
(** * Properties of the sessions panel: directory normalisation *)
(* ===================================================================== *)

Section DirectoryNormalisation.
Import AgentSessionsPanel.

Lemma truthy_false (s : string) : Js.truthy s = false <-> s = EmptyString.
Proof. destruct s; simpl; split; congruence. Qed.

Lemma truthy_true (s : string) : Js.truthy s = true <-> s <> EmptyString.
Proof. destruct s; simpl; split; congruence. Qed.

Lemma isSeparator_cases (c : ascii) :
  isSeparator c = true <-> c = "/"%char \/ c = "\"%char.
Proof.
  unfold isSeparator. rewrite orb_true_iff, !Ascii.eqb_eq. reflexivity.
Qed.

Lemma replaced_separator (c : ascii) :
  isSeparator c = true -> (if Ascii.eqb c "\"%char then "/"%char else c) = "/"%char.
Proof.
  intros Hc. apply isSeparator_cases in Hc as [->| ->]; reflexivity.
Qed.

Lemma replaced_other (c : ascii) :
  isSeparator c = false -> (if Ascii.eqb c "\"%char then "/"%char else c) = c.
Proof.
  unfold isSeparator. intros Hc. apply orb_false_iff in Hc as [_ Hb]. now rewrite Hb.
Qed.

Lemma stripTrailingSlashes_cons (c : ascii) (s : string) :
  stripTrailingSlashes (String c s) =
    if Ascii.eqb c "/"%char && negb (Js.truthy (stripTrailingSlashes s))
    then EmptyString else String c (stripTrailingSlashes s).
Proof. reflexivity. Qed.

(** What is left of a path is empty exactly when the path is made of
    separators only. *)
Lemma normal_form_empty (d : string) :
  stripTrailingSlashes (replaceBackslashes d) = EmptyString <-> onlySeparators d = true.
Proof.
  induction d as [|c d IH]; [simpl; tauto|].
  cbn [replaceBackslashes onlySeparators]. rewrite stripTrailingSlashes_cons.
  destruct (isSeparator c) eqn:Hc.
  - rewrite (replaced_separator c Hc). simpl andb.
    destruct (stripTrailingSlashes (replaceBackslashes d)) eqn:Hr; simpl.
    + split; [intros _; now apply IH|reflexivity].
    + split; [discriminate|]. intros Hd. apply IH in Hd. discriminate.
  - rewrite (replaced_other c Hc).
    assert (Hs : Ascii.eqb c "/"%char = false).
    { unfold isSeparator in Hc. now apply orb_false_iff in Hc as [? _]. }
    rewrite Hs. simpl. split; discriminate.
Qed.

Lemma replaceBackslashes_no_backslash (d : string) :
  containsBackslash (replaceBackslashes d) = false.
Proof.
  induction d as [|c d IH]; [reflexivity|].
  cbn [replaceBackslashes containsBackslash]. rewrite IH, orb_false_r.
  destruct (Ascii.eqb c "\"%char) eqn:Hc; [reflexivity|exact Hc].
Qed.

Lemma stripTrailingSlashes_no_backslash (s : string) :
  containsBackslash s = false -> containsBackslash (stripTrailingSlashes s) = false.
Proof.
  induction s as [|c s IH]; [reflexivity|].
  cbn [containsBackslash]. intros Hs. apply orb_false_iff in Hs as [Hc Hs].
  rewrite stripTrailingSlashes_cons.
  destruct (Ascii.eqb c "/"%char && negb (Js.truthy (stripTrailingSlashes s)));
    [reflexivity|].
  cbn [containsBackslash]. now rewrite Hc, IH.
Qed.

Lemma stripTrailingSlashes_no_trailing (s : string) :
  containsBackslash s = false -> endsWithSeparator (stripTrailingSlashes s) = false.
Proof.
  induction s as [|c s IH]; [reflexivity|].
  cbn [containsBackslash]. intros Hs. apply orb_false_iff in Hs as [Hc Hs].
  rewrite stripTrailingSlashes_cons.
  destruct (stripTrailingSlashes s) as [|c' r] eqn:Hr.
  - simpl negb. rewrite andb_true_r.
    destruct (Ascii.eqb c "/"%char) eqn:Hsl; [reflexivity|].
    simpl. unfold isSeparator. now rewrite Hsl, Hc.
  - simpl negb. rewrite andb_false_r.
    change (endsWithSeparator (String c (String c' r)))
      with (endsWithSeparator (String c' r)).
    now apply IH.
Qed.

Lemma stripTrailingSlashes_nonSeparators (s : string) :
  nonSeparators (stripTrailingSlashes s) = nonSeparators s.
Proof.
  induction s as [|c s IH]; [reflexivity|].
  rewrite stripTrailingSlashes_cons.
  destruct (Ascii.eqb c "/"%char) eqn:Hsl.
  - apply Ascii.eqb_eq in Hsl as ->.
    destruct (stripTrailingSlashes s) eqn:Hr; simpl in *; congruence.
  - simpl andb. cbn [nonSeparators]. now rewrite IH.
Qed.

Lemma replaceBackslashes_nonSeparators (d : string) :
  nonSeparators (replaceBackslashes d) = nonSeparators d.
Proof.
  induction d as [|c d IH]; [reflexivity|].
  cbn [replaceBackslashes nonSeparators].
  destruct (isSeparator c) eqn:Hc.
  - now rewrite (replaced_separator c Hc).
  - now rewrite (replaced_other c Hc), Hc, IH.
Qed.

Lemma onlySeparators_normal_form (t : string) :
  onlySeparators t = true -> stripTrailingSlashes (replaceBackslashes t) = EmptyString.
Proof. apply normal_form_empty. Qed.

(** Paths that differ in separator style or trailing separators only have
    the same separator-unified, slash-trimmed form. *)
Lemma SameUpToSeparators_normal_form (d d' : string) :
  SameUpToSeparators d d' ->
  stripTrailingSlashes (replaceBackslashes d) = stripTrailingSlashes (replaceBackslashes d').
Proof.
  induction 1 as [t t' Ht Ht'|c s s' _ IH|c c' s s' Hc Hc' _ IH].
  - now rewrite !onlySeparators_normal_form.
  - cbn [replaceBackslashes]. rewrite !stripTrailingSlashes_cons. now rewrite IH.
  - cbn [replaceBackslashes]. rewrite !stripTrailingSlashes_cons.
    now rewrite (replaced_separator c Hc), (replaced_separator c' Hc'), IH.
Qed.

Lemma normalizePath_proper (d : string) :
  onlySeparators d = false ->
  normalizePath d = stripTrailingSlashes (replaceBackslashes d) /\
  normalizePath d <> EmptyString.
Proof.
  intros Hd. unfold normalizePath, Js.or.
  destruct (stripTrailingSlashes (replaceBackslashes d)) eqn:Hr.
  - apply normal_form_empty in Hr. congruence.
  - simpl. split; [reflexivity|discriminate].
Qed.

(** The fallback: a path made of separators only is its own key. *)
Lemma normalizePath_fallback (d : string) :
  onlySeparators d = true -> normalizePath d = d.
Proof.
  intros Hd. unfold normalizePath, Js.or.
  now rewrite (onlySeparators_normal_form d Hd).
Qed.

(** The label of sessions without a directory is a key like any other. *)
Lemma normalizedKey_normalizePath (s : SessionWithEvents) :
  normalizedKey s = normalizePath (rawDirectory s).
Proof.
  unfold normalizedKey.
  destruct (String.eqb (rawDirectory s) UNKNOWN_DIRECTORY_LABEL) eqn:Heq; [|reflexivity].
  apply String.eqb_eq in Heq. rewrite Heq. reflexivity.
Qed.

Lemma normalizedRepositoryPath_normalizePath (p : string) :
  p <> EmptyString -> normalizedRepositoryPath (Some p) = Some (normalizePath p).
Proof. destruct p; [congruence|reflexivity]. Qed.

(** C6, as the code has it. Normalisation turns every backslash into a
    slash and removes all trailing slashes, and falls back on the directory
    as written when that leaves nothing.  So a directory made of separators
    only is its own key; and for every directory that has a character other
    than a separator: its key holds no backslash, does not end in a
    separator and is not empty; a directory that differs from it only in
    separator style or in trailing separators has the same key; and nothing
    but separators is touched, so keys are compared with the case of every
    letter as it was written. *)
Theorem normalizePath_unifies_and_trims (d : string) :
  (onlySeparators d = true -> normalizePath d = d) /\
  (onlySeparators d = false ->
   normalizePath d = stripTrailingSlashes (replaceBackslashes d) /\
   containsBackslash (normalizePath d) = false /\
   endsWithSeparator (normalizePath d) = false /\
   normalizePath d <> EmptyString /\
   (forall d', SameUpToSeparators d d' -> normalizePath d' = normalizePath d) /\
   nonSeparators (normalizePath d) = nonSeparators d /\
   (forall d', String.eqb (normalizePath d) (normalizePath d') = true ->
               nonSeparators d' = nonSeparators d)) /\
  (forall s, normalizedKey s = normalizePath (rawDirectory s)) /\
  (d <> EmptyString -> normalizedRepositoryPath (Some d) = Some (normalizePath d)).
Proof.
  split; [apply normalizePath_fallback|].
  split; [|split; [apply normalizedKey_normalizePath
                  |apply normalizedRepositoryPath_normalizePath]].
  intros Hd. destruct (normalizePath_proper d Hd) as [Heq Hne].
  pose proof (replaceBackslashes_no_backslash d) as Hbs.
  split; [exact Heq|]. rewrite Heq.
  split; [now apply stripTrailingSlashes_no_backslash|].
  split; [now apply stripTrailingSlashes_no_trailing|].
  split; [now rewrite <- Heq|].
  split.
  { intros d' Hsame.
    pose proof (SameUpToSeparators_normal_form d d' Hsame) as Hnf.
    assert (Hd' : onlySeparators d' = false).
    { destruct (onlySeparators d') eqn:Ho; [|reflexivity].
      apply normal_form_empty in Ho. rewrite <- Hnf in Ho.
      apply normal_form_empty in Ho. congruence. }
    destruct (normalizePath_proper d' Hd') as [Heq' _]. congruence. }
  split.
  { now rewrite stripTrailingSlashes_nonSeparators, replaceBackslashes_nonSeparators. }
  intros d' Hkey. apply String.eqb_eq in Hkey.
  assert (Hns : nonSeparators (normalizePath d') = nonSeparators d').
  { unfold normalizePath, Js.or. destruct (Js.truthy _); [|reflexivity].
    now rewrite stripTrailingSlashes_nonSeparators, replaceBackslashes_nonSeparators. }
  rewrite <- Hns, <- Hkey.
  now rewrite stripTrailingSlashes_nonSeparators, replaceBackslashes_nonSeparators.
Qed.

(** The claim as the specification words it fails at the root directory:
    ["/"] is not empty and is its own key, separator at the end included;
    ["/"], ["\"] and ["//"] differ in separator style or trailing separators
    only and have three different keys. *)
Lemma normalizePath_root_keeps_separator :
  normalizePath "/" = "/" /\
  endsWithSeparator (normalizePath "/") = true /\
  "/" <> EmptyString /\
  SameUpToSeparators "/" "\" /\
  SameUpToSeparators "/" "//" /\
  normalizePath "\" = "\" /\
  normalizePath "//" = "//" /\
  normalizePath "/" <> normalizePath "\" /\
  normalizePath "/" <> normalizePath "//" /\
  containsBackslash (normalizePath "\") = true.
Proof.
  repeat split; try reflexivity; try discriminate;
    apply same_trailing; reflexivity.
Qed.

Lemma normalizePath_unifies_and_trims_witness :
  onlySeparators "C:\work\repo\\" = false /\
  normalizePath "C:\work\repo\\" = "C:/work/repo" /\
  normalizePath "C:/work/repo/" = normalizePath "C:\work\repo\\".
Proof.
  destruct (normalizePath_unifies_and_trims "C:\work\repo\\") as (_ & Hproper & _).
  destruct (Hproper eq_refl) as (Heq & _ & _ & _ & Hsame & _).
  split; [reflexivity|]. split; [exact Heq|].
  apply Hsame.
  do 2 apply same_char. apply same_separator; [reflexivity..|].
  do 4 apply same_char. apply same_separator; [reflexivity..|].
  do 4 apply same_char. apply same_trailing; reflexivity.
Defined.

End DirectoryNormalisation.

(* ===================================================================== *)
(** * Properties of the sessions panel: the two filters *)
(* ===================================================================== *)

Section SessionFilters.
Import AgentSessionsPanel.

Variable toLowerCase : string -> string.

Lemma startsWith_spec (text q : string) :
  Js.startsWith text q = true <-> exists post, text = String.append q post.
Proof.
  revert text. induction q as [|a q IH]; intros text.
  - destruct text; simpl; (split; [intros _; eexists; reflexivity|reflexivity]).
  - destruct text as [|b text]; simpl.
    + split; [discriminate|]. intros [post Hp]. discriminate.
    + rewrite andb_true_iff, Ascii.eqb_eq, IH. split.
      * intros [-> [post ->]]. now exists post.
      * intros [post Hp]. injection Hp as -> ->. split; [reflexivity|now exists post].
Qed.

Lemma includes_spec (text q : string) :
  Js.includes text q = true <-> isSubstring q text.
Proof.
  unfold isSubstring. induction text as [|c text IH].
  - cbn [Js.includes]. rewrite orb_false_r, startsWith_spec. split.
    + intros [post Hp]. now exists EmptyString, post.
    + intros (pre & post & Hp). destruct pre; [now exists post|discriminate].
  - cbn [Js.includes]. rewrite orb_true_iff, startsWith_spec, IH. split.
    + intros [[post Hp]|(pre & post & Hp)].
      * now exists EmptyString, post.
      * exists (String c pre), post. simpl. now rewrite Hp.
    + intros (pre & post & Hp). destruct pre as [|c' pre].
      * left. now exists post.
      * right. simpl in Hp. injection Hp as _ Hp. now exists pre, post.
Qed.

Lemma filterBoolean_present (l : list (option string)) :
  Js.filterBoolean l =
    List.filter (fun x => negb (String.eqb x EmptyString)) (omap id l).
Proof.
  induction l as [|[x|] l IH]; [reflexivity| |exact IH].
  cbn [Js.filterBoolean omap list_omap id List.filter].
  destruct x; simpl; now rewrite IH.
Qed.

Lemma searchableText_presentFields (s : SessionWithEvents) :
  searchableText toLowerCase s = toLowerCase (Js.join " " (presentFields s)).
Proof.
  unfold searchableText, presentFields, searchFields.
  now rewrite filterBoolean_present.
Qed.

(** When no field is the empty string, the fields that are there are the
    ones that are not [undefined]. *)
Lemma presentFields_no_empty (s : SessionWithEvents) :
  Forall (fun field => field <> Some EmptyString) (searchFields s) ->
  presentFields s = omap id (searchFields s).
Proof.
  unfold presentFields. generalize (searchFields s) as fields.
  induction fields as [|[x|] fields IH]; intros Hall; [reflexivity| |].
  - apply Forall_cons in Hall as [Hx Hall]. cbn [omap list_omap id List.filter].
    destruct (String.eqb_spec x EmptyString) as [->|_]; [congruence|].
    simpl. f_equal. now apply IH.
  - apply Forall_cons in Hall as [_ Hall]. now apply IH.
Qed.

(** The filtered list: the sessions that pass both filters, in the order
    of the list they come from. *)
Lemma filteredSessions_In (sessions : list SessionWithEvents)
    (statusFilter searchQuery : string) (s : SessionWithEvents) :
  In s (filteredSessions toLowerCase sessions statusFilter searchQuery) <->
  In s sessions /\ passesStatus statusFilter s /\
  (searchQuery = EmptyString \/ passesSearch toLowerCase searchQuery s).
Proof.
  assert (Hsearch : forall x, Js.includes (searchableText toLowerCase x)
                                (toLowerCase searchQuery) = true
                              <-> passesSearch toLowerCase searchQuery x).
  { intros x. unfold passesSearch.
    now rewrite includes_spec, searchableText_presentFields. }
  unfold filteredSessions, passesStatus. cbv zeta.
  destruct (Js.truthy searchQuery) eqn:Hq;
    [apply truthy_true in Hq|apply truthy_false in Hq];
    (destruct (String.eqb statusFilter "all") eqn:Hs;
     [apply String.eqb_eq in Hs|apply String.eqb_neq in Hs]);
    cbn [negb]; rewrite ?filter_In, ?Hsearch, ?String.eqb_eq; tauto.
Qed.

(** C5. For a query that is not empty, a session passes the free-text
    filter exactly when the lower-cased query occurs in the lower-cased
    text made of its custom name, session id, working directory, latest
    tool name and latest file name, joined by single spaces, a field that
    is absent (or empty) being left out; when no field is the empty string
    those are the fields that are defined.  The query and the fields enter
    the match through their lower-cased forms only, so neither's case
    matters. *)
Theorem search_is_case_insensitive_substring
    (sessions : list SessionWithEvents) (statusFilter searchQuery : string)
    (s : SessionWithEvents) :
  searchQuery <> EmptyString ->
  (In s (filteredSessions toLowerCase sessions statusFilter searchQuery) <->
   In s sessions /\ passesStatus statusFilter s /\
   isSubstring (toLowerCase searchQuery) (toLowerCase (Js.join " " (presentFields s)))) /\
  (Js.includes (searchableText toLowerCase s) (toLowerCase searchQuery) = true <->
   isSubstring (toLowerCase searchQuery) (toLowerCase (Js.join " " (presentFields s)))) /\
  presentFields s = Js.filterBoolean (searchFields s) /\
  (Forall (fun field => field <> Some EmptyString) (searchFields s) ->
   presentFields s = omap id (searchFields s)) /\
  (forall q', q' <> EmptyString -> toLowerCase q' = toLowerCase searchQuery ->
     filteredSessions toLowerCase sessions statusFilter q' =
     filteredSessions toLowerCase sessions statusFilter searchQuery) /\
  (forall s', toLowerCase (Js.join " " (presentFields s')) =
              toLowerCase (Js.join " " (presentFields s)) ->
     Js.includes (searchableText toLowerCase s') (toLowerCase searchQuery) =
     Js.includes (searchableText toLowerCase s) (toLowerCase searchQuery)).
Proof.
  intros Hq. split.
  { rewrite filteredSessions_In. unfold passesSearch. intuition congruence. }
  split.
  { now rewrite includes_spec, searchableText_presentFields. }
  split.
  { unfold presentFields. now rewrite filterBoolean_present. }
  split; [apply presentFields_no_empty|].
  split.
  { intros q' Hq' Hlow. unfold filteredSessions.
    apply truthy_true in Hq, Hq'. now rewrite Hq, Hq', Hlow. }
  intros s' Htext. now rewrite !searchableText_presentFields, Htext.
Qed.

End SessionFilters.

(* ===================================================================== *)
(** * Properties of the sessions panel: grouping by directory *)
(* ===================================================================== *)

Section JsMap.
Context {V : Type}.
Implicit Types (m : Js.Map V) (k : string) (v : V).

Lemma get_None m k : Js.get m k = None <-> ~ In k (map fst m).
Proof.
  induction m as [|[k' v'] m IH]; simpl; [tauto|].
  destruct (String.eqb k' k) eqn:Hk.
  - apply String.eqb_eq in Hk. split; [discriminate|]. intros Hn. tauto.
  - apply String.eqb_neq in Hk. rewrite IH. tauto.
Qed.

(** [set] on a key that is not in the map appends it. *)
Lemma set_fresh m k v : Js.get m k = None -> Js.set m k v = m ++ [(k, v)].
Proof.
  induction m as [|[k' v'] m IH]; simpl; [reflexivity|].
  destruct (String.eqb k' k); [discriminate|]. intros Hg. now rewrite IH.
Qed.

(** [set] on a key that is in the map replaces its value where it stands. *)
Lemma set_found m k v0 v :
  Js.get m k = Some v0 ->
  exists m1 m2, m = m1 ++ (k, v0) :: m2 /\ Js.set m k v = m1 ++ (k, v) :: m2.
Proof.
  induction m as [|[k' v'] m IH]; simpl; [discriminate|].
  destruct (String.eqb k' k) eqn:Hk.
  - apply String.eqb_eq in Hk as ->. intros [= ->].
    exists [], m. simpl. tauto.
  - intros Hg. destruct (IH Hg) as (m1 & m2 & -> & ->).
    exists ((k', v') :: m1), m2. simpl. tauto.
Qed.

Lemma set_set_fresh m k v v' :
  Js.get m k = None -> Js.set (Js.set m k v) k v' = m ++ [(k, v')].
Proof.
  intros Hg. rewrite (set_fresh m k v Hg).
  induction m as [|[k0 v0] m IH]; simpl in *.
  - now rewrite String.eqb_refl.
  - destruct (String.eqb k0 k); [discriminate|]. now rewrite IH.
Qed.

End JsMap.

Section Grouping.
Import AgentSessionsPanel.

Lemma Grouped_nil : Grouped [] [].
Proof. split; simpl; try constructor; tauto. Qed.

Lemma filter_hasKey_snoc (k : string) (l : list SessionWithEvents) (s : SessionWithEvents) :
  List.filter (hasKey k) (l ++ [s]) =
    List.filter (hasKey k) l ++ (if String.eqb (normalizedKey s) k then [s] else []).
Proof. rewrite List.filter_app. reflexivity. Qed.

Lemma filter_hasKey_other (k : string) (l : list SessionWithEvents) (s : SessionWithEvents) :
  normalizedKey s <> k ->
  List.filter (hasKey k) (l ++ [s]) = List.filter (hasKey k) l.
Proof.
  intros Hk. rewrite filter_hasKey_snoc.
  apply String.eqb_neq in Hk. rewrite Hk. apply app_nil_r.
Qed.

Lemma Grouped_addSession m l s :
  Grouped m l -> Grouped (addSession m s) (l ++ [s]).
Proof.
  intros [Hkeys Hgroups Hall Hperm]. unfold addSession.
  destruct (Js.get m (normalizedKey s)) as [g|] eqn:Hget.
  - destruct (set_found m _ g (pushSession g s) Hget) as (m1 & m2 & -> & ->).
    assert (Hother : forall k0 g0, In (k0, g0) (m1 ++ m2) -> k0 <> normalizedKey s).
    { intros k0 g0 Hin ->. rewrite map_app in Hkeys. simpl in Hkeys.
      apply NoDup_ListNoDup, NoDup_remove_2 in Hkeys. apply Hkeys.
      rewrite <- map_app. apply (in_map fst) in Hin. exact Hin. }
    destruct (Hgroups _ g (in_elt _ _ _)) as (Hgk & Hgs & _).
    split.
    + rewrite map_app in *. exact Hkeys.
    + intros k0 g0 Hin. apply in_app_or in Hin as [Hin|[[= <- <-]|Hin]].
      * assert (Hne := Hother k0 g0 (in_or_app _ _ _ (or_introl Hin))).
        destruct (Hgroups k0 g0) as (? & Hs0 & ?); [apply in_or_app; now left|].
        rewrite filter_hasKey_other by congruence. tauto.
      * simpl. repeat split; [exact Hgk| |].
        -- rewrite filter_hasKey_snoc, <- Hgs. now rewrite String.eqb_refl.
        -- intros Hnil. apply app_eq_nil in Hnil as [_ Hnil]. discriminate.
      * assert (Hne := Hother k0 g0 (in_or_app _ _ _ (or_intror Hin))).
        destruct (Hgroups k0 g0) as (? & Hs0 & ?); [apply in_or_app; right; now right|].
        rewrite filter_hasKey_other by congruence. tauto.
    + intros s0 Hin. rewrite map_app in *. simpl in *.
      apply in_app_or in Hin as [Hin|[<-|[]]]; [now apply Hall|].
      apply in_or_app. right. now left.
    + rewrite map_app, concat_app in *. simpl in *.
      rewrite <- Hperm, <- !app_assoc.
      apply Permutation_app_head. apply Permutation_app_head.
      apply Permutation_app_comm.
  - rewrite set_set_fresh by exact Hget.
    assert (Hfresh : ~ In (normalizedKey s) (map fst m)) by now apply get_None.
    assert (Hnone : List.filter (hasKey (normalizedKey s)) l = []).
    { destruct (List.filter (hasKey (normalizedKey s)) l) as [|s0 r] eqn:Hf; [reflexivity|].
      assert (Hin : In s0 (List.filter (hasKey (normalizedKey s)) l))
        by (rewrite Hf; now left).
      apply filter_In in Hin as [Hin Hk]. apply String.eqb_eq in Hk.
      exfalso. apply Hfresh. rewrite <- Hk. now apply Hall. }
    split.
    + rewrite map_app. simpl. apply NoDup_app. repeat split; [exact Hkeys| |].
      * intros x Hx Hx'. apply list_elem_of_In in Hx.
        apply list_elem_of_singleton in Hx'. subst x. contradiction.
      * apply NoDup_singleton.
    + intros k0 g0 Hin. apply in_app_or in Hin as [Hin|[[= <- <-]|[]]].
      * destruct (Hgroups k0 g0 Hin) as (? & Hs0 & ?).
        rewrite filter_hasKey_other; [tauto|].
        intros Hk. apply Hfresh. rewrite Hk. apply (in_map fst) in Hin. exact Hin.
      * simpl. repeat split; [|discriminate].
        rewrite filter_hasKey_snoc, Hnone. now rewrite String.eqb_refl.
    + intros s0 Hin. rewrite map_app. simpl.
      apply in_app_or in Hin as [Hin|[<-|[]]].
      * apply in_or_app. left. now apply Hall.
      * apply in_or_app. right. now left.
    + rewrite map_app, concat_app. simpl. rewrite ?app_nil_r.
      now apply Permutation_app_tail.
Qed.

Lemma Grouped_fold (l : list SessionWithEvents) :
  forall m l0, Grouped m l0 -> Grouped (fold_left addSession l m) (l0 ++ l).
Proof.
  induction l as [|s l IH]; intros m l0 Hg; simpl.
  - now rewrite app_nil_r.
  - replace (l0 ++ s :: l) with ((l0 ++ [s]) ++ l) by now rewrite <- app_assoc.
    apply IH. now apply Grouped_addSession.
Qed.

(** ** [sort] *)

Lemma insertSorted_Permutation {A} (cmp : A -> A -> Z) (x : A) (l : list A) :
  Permutation (Js.insertSorted cmp x l) (x :: l).
Proof.
  induction l as [|y l IH]; simpl; [reflexivity|].
  destruct (cmp x y <=? 0)%Z; [reflexivity|].
  rewrite IH. apply perm_swap.
Qed.

Lemma sort_Permutation {A} (cmp : A -> A -> Z) (l : list A) :
  Permutation (Js.sort cmp l) l.
Proof.
  induction l as [|x l IH]; simpl; [reflexivity|].
  unfold Js.sort in *. simpl. now rewrite insertSorted_Permutation, IH.
Qed.

End Grouping.

Section DirectoryGroups.
Import AgentSessionsPanel.

Variable toLowerCase : string -> string.
Variable localeCompare : string -> string -> Z.

Local Abbreviation filtered allSessions statusFilter searchQuery :=
  (filteredSessions toLowerCase allSessions statusFilter searchQuery).
Local Abbreviation groups allSessions statusFilter searchQuery repositoryPath :=
  (panelGroups toLowerCase localeCompare allSessions statusFilter searchQuery repositoryPath).

Lemma NoDup_map_inj {A B} (f : A -> B) (l : list A) (x y : A) :
  NoDup (map f l) -> In x l -> In y l -> f x = f y -> x = y.
Proof.
  induction l as [|a l IH]; simpl; [tauto|].
  rewrite NoDup_cons. intros [Hna Hnd] [->|Hx] [->|Hy] Heq; try reflexivity.
  - exfalso. apply Hna. rewrite Heq. apply list_elem_of_In. now apply in_map.
  - exfalso. apply Hna. rewrite <- Heq. apply list_elem_of_In. now apply in_map.
  - now apply IH.
Qed.

(** The groups before they are sorted. *)
Lemma marked_groups (m : Js.Map SessionDirectoryGroup) (l : list SessionWithEvents)
    (p : option string) :
  Grouped m l ->
  map normalizedDirectory (map (markCurrent p) (Js.values m)) = map fst m /\
  map sessions (map (markCurrent p) (Js.values m)) = map (fun kg => sessions (snd kg)) m /\
  (forall g, In g (map (markCurrent p) (Js.values m)) ->
     sessions g = List.filter (hasKey (normalizedDirectory g)) l /\
     sessions g <> [] /\
     isCurrentDirectory g =
       match p with None => false | Some q => String.eqb (normalizedDirectory g) q end).
Proof.
  intros [_ Hgroups _ _]. unfold Js.values. rewrite !map_map.
  split; [|split].
  - apply map_ext_in. intros [k g] Hin. simpl. now apply Hgroups.
  - reflexivity.
  - intros g Hg. apply in_map_iff in Hg as ([k g0] & <- & Hin). simpl.
    destruct (Hgroups k g0 Hin) as (-> & Hs & Hne). now repeat split.
Qed.

Lemma panelGroups_Permutation allSessions statusFilter searchQuery repositoryPath :
  exists m,
    Grouped m (filtered allSessions statusFilter searchQuery) /\
    Permutation (groups allSessions statusFilter searchQuery repositoryPath)
      (map (markCurrent (normalizedRepositoryPath repositoryPath)) (Js.values m)) /\
    groups allSessions statusFilter searchQuery repositoryPath =
      Js.sort (compareGroups localeCompare)
        (map (markCurrent (normalizedRepositoryPath repositoryPath)) (Js.values m)).
Proof.
  exists (fold_left addSession (filtered allSessions statusFilter searchQuery) []).
  split; [apply (Grouped_fold _ [] []), Grouped_nil|].
  split; [apply sort_Permutation|reflexivity].
Qed.

(** C2. The groups the panel shows partition the sessions that pass both
    filters: the keys of the groups are pairwise different; a group holds
    exactly the filtered sessions whose normalized directory is its key (in
    their order, and at least one); every filtered session is in the group
    of its normalized directory; no session is in two groups; no group
    holds a session that did not pass the filters; and, counting repeats,
    the groups put together are the filtered sessions. *)
Theorem groups_partition_filtered_sessions
    (allSessions : list SessionWithEvents) (statusFilter searchQuery : string)
    (repositoryPath : option string) :
  (forall s, In s (filtered allSessions statusFilter searchQuery) <->
             In s allSessions /\ passesStatus statusFilter s /\
             (searchQuery = EmptyString \/ passesSearch toLowerCase searchQuery s)) /\
  NoDup (map normalizedDirectory (groups allSessions statusFilter searchQuery repositoryPath)) /\
  (forall g, In g (groups allSessions statusFilter searchQuery repositoryPath) ->
     sessions g = List.filter (hasKey (normalizedDirectory g))
                    (filtered allSessions statusFilter searchQuery) /\
     sessions g <> []) /\
  (forall s, In s (filtered allSessions statusFilter searchQuery) ->
     exists g, In g (groups allSessions statusFilter searchQuery repositoryPath) /\
               normalizedDirectory g = normalizedKey s /\ In s (sessions g)) /\
  (forall g g' s,
     In g (groups allSessions statusFilter searchQuery repositoryPath) ->
     In g' (groups allSessions statusFilter searchQuery repositoryPath) ->
     In s (sessions g) -> In s (sessions g') -> g = g') /\
  (forall g s, In g (groups allSessions statusFilter searchQuery repositoryPath) ->
     In s (sessions g) ->
     In s (filtered allSessions statusFilter searchQuery) /\
     normalizedKey s = normalizedDirectory g) /\
  Permutation
    (concat (map sessions (groups allSessions statusFilter searchQuery repositoryPath)))
    (filtered allSessions statusFilter searchQuery).
Proof.
  destruct (panelGroups_Permutation allSessions statusFilter searchQuery repositoryPath)
    as (m & Hg & Hperm & _).
  destruct (marked_groups m _ (normalizedRepositoryPath repositoryPath) Hg)
    as (Hkeys & Hsess & Hin).
  set (gs := groups allSessions statusFilter searchQuery repositoryPath) in *.
  set (l := filtered allSessions statusFilter searchQuery) in *.
  assert (Hnodup : NoDup (map normalizedDirectory gs)).
  { rewrite (Permutation_map normalizedDirectory Hperm), Hkeys. apply Hg. }
  assert (Hmem : forall g, In g gs ->
             sessions g = List.filter (hasKey (normalizedDirectory g)) l /\ sessions g <> []).
  { intros g Hgin. apply (Permutation_in _ Hperm) in Hgin.
    destruct (Hin g Hgin) as (? & ? & _). tauto. }
  assert (Hsub : forall g s, In g gs -> In s (sessions g) ->
             In s l /\ normalizedKey s = normalizedDirectory g).
  { intros g s Hgin Hs. destruct (Hmem g Hgin) as [Heq _]. rewrite Heq in Hs.
    apply filter_In in Hs as [Hs Hk]. split; [exact Hs|now apply String.eqb_eq]. }
  split; [intros s; apply filteredSessions_In|].
  split; [exact Hnodup|]. split; [exact Hmem|]. split.
  { intros s Hs. pose proof (grouped_all _ _ Hg s Hs) as Hk.
    rewrite <- Hkeys in Hk. apply in_map_iff in Hk as (g & Hgk & Hgin).
    apply (Permutation_in _ (Permutation_sym Hperm)) in Hgin.
    exists g. split; [exact Hgin|]. split; [exact Hgk|].
    destruct (Hmem g Hgin) as [-> _]. apply filter_In. split; [exact Hs|].
    unfold hasKey. rewrite Hgk. apply String.eqb_refl. }
  split.
  { intros g g' s Hgin Hgin' Hs Hs'.
    apply (NoDup_map_inj normalizedDirectory gs); try assumption.
    destruct (Hsub g s Hgin Hs) as [_ <-]. now destruct (Hsub g' s Hgin' Hs') as [_ <-]. }
  split; [exact Hsub|].
  rewrite (Permutation_map sessions Hperm), Hsess. apply Hg.
Qed.

End DirectoryGroups.

(* ===================================================================== *)
(** * Properties of the sessions panel: the order of the groups *)
(* ===================================================================== *)

Section SortedByComparator.
Context {A : Type} (cmp : A -> A -> Z).

(** A consistent comparator: any two elements compare one way or the
    other, and transitively so. *)
Hypothesis cmp_total : forall a b, (cmp a b <= 0)%Z \/ (cmp b a <= 0)%Z.
Hypothesis cmp_trans : forall a b c, (cmp a b <= 0)%Z -> (cmp b c <= 0)%Z -> (cmp a c <= 0)%Z.

Lemma insertSorted_sorted (x : A) (l : list A) :
  StronglySorted (fun a b => (cmp a b <= 0)%Z) l ->
  StronglySorted (fun a b => (cmp a b <= 0)%Z) (Js.insertSorted cmp x l).
Proof.
  induction 1 as [|y l Hl IH Hy]; simpl; [repeat constructor|].
  destruct (Z.leb_spec (cmp x y) 0) as [Hxy|Hxy].
  - constructor; [now constructor|].
    constructor; [exact Hxy|].
    eapply Forall_impl; [exact Hy|]. intros z Hyz. now apply (cmp_trans x y z).
  - constructor; [exact IH|].
    apply Forall_forall. intros z Hz.
    apply list_elem_of_In, (Permutation_in _ (insertSorted_Permutation cmp x l)) in Hz.
    destruct Hz as [<-|Hz].
    + destruct (cmp_total x y); [lia|assumption].
    + apply (proj1 (Forall_forall _ _) Hy). now apply list_elem_of_In.
Qed.

Lemma sort_sorted (l : list A) :
  StronglySorted (fun a b => (cmp a b <= 0)%Z) (Js.sort cmp l).
Proof.
  induction l as [|x l IH]; [constructor|].
  unfold Js.sort in *. simpl. now apply insertSorted_sorted.
Qed.

End SortedByComparator.

Section GroupOrder.
Import AgentSessionsPanel.

Variable toLowerCase : string -> string.
Variable localeCompare : string -> string -> Z.

(** [localeCompare] is the host's collation: a consistent comparator. *)
Hypothesis localeCompare_total :
  forall a b, (localeCompare a b <= 0)%Z \/ (localeCompare b a <= 0)%Z.
Hypothesis localeCompare_trans :
  forall a b c, (localeCompare a b <= 0)%Z -> (localeCompare b c <= 0)%Z ->
                (localeCompare a c <= 0)%Z.

Lemma compareGroups_total (a b : SessionDirectoryGroup) :
  (compareGroups localeCompare a b <= 0)%Z \/ (compareGroups localeCompare b a <= 0)%Z.
Proof.
  unfold compareGroups.
  destruct (isCurrentDirectory a), (isCurrentDirectory b); simpl;
    try apply localeCompare_total; lia.
Qed.

Lemma compareGroups_trans (a b c : SessionDirectoryGroup) :
  (compareGroups localeCompare a b <= 0)%Z -> (compareGroups localeCompare b c <= 0)%Z ->
  (compareGroups localeCompare a c <= 0)%Z.
Proof.
  unfold compareGroups.
  destruct (isCurrentDirectory a), (isCurrentDirectory b), (isCurrentDirectory c); simpl;
    try apply localeCompare_trans; lia.
Qed.

Lemma compareGroups_current_after (a b : SessionDirectoryGroup) :
  isCurrentDirectory a = false -> isCurrentDirectory b = true ->
  ~ (compareGroups localeCompare a b <= 0)%Z.
Proof. unfold compareGroups. intros -> ->. simpl. lia. Qed.

Lemma compareGroups_others (a b : SessionDirectoryGroup) :
  isCurrentDirectory a = false -> isCurrentDirectory b = false ->
  compareGroups localeCompare a b = localeCompare (groupDirectory a) (groupDirectory b).
Proof. unfold compareGroups. now intros -> ->. Qed.

(** In a list sorted by [compareGroups] the current-directory groups come
    before all others. *)
Lemma sorted_current_first (gs : list SessionDirectoryGroup) :
  StronglySorted (fun a b => (compareGroups localeCompare a b <= 0)%Z) gs ->
  gs = List.filter isCurrentDirectory gs
       ++ List.filter (fun g => negb (isCurrentDirectory g)) gs.
Proof.
  induction 1 as [|g gs Hs IH Hg]; [reflexivity|].
  simpl. destruct (isCurrentDirectory g) eqn:Hc; simpl.
  - now rewrite <- IH.
  - assert (Hall : Forall (fun y => isCurrentDirectory y = false) gs).
    { eapply Forall_impl; [exact Hg|]. intros y Hy.
      destruct (isCurrentDirectory y) eqn:Hcy; [|reflexivity].
      exfalso. exact (compareGroups_current_after g y Hc Hcy Hy). }
    assert (Hnone : List.filter isCurrentDirectory gs = []
                    /\ List.filter (fun g => negb (isCurrentDirectory g)) gs = gs).
    { clear -Hall. induction Hall as [|y gs Hy _ [IH1 IH2]]; [split; reflexivity|].
      simpl. rewrite Hy. simpl. now rewrite IH1, IH2. }
    destruct Hnone as [-> ->]. reflexivity.
Qed.

Lemma filter_StronglySorted {A} (R : A -> A -> Prop) (f : A -> bool) (l : list A) :
  StronglySorted R l -> StronglySorted R (List.filter f l).
Proof.
  induction 1 as [|x l Hs IH Hx]; [constructor|].
  simpl. destruct (f x); [|exact IH].
  constructor; [exact IH|].
  apply Forall_forall. intros y Hy. apply list_elem_of_In, filter_In in Hy as [Hy _].
  apply (proj1 (Forall_forall _ _) Hx). now apply list_elem_of_In.
Qed.

Lemma others_sorted_by_directory (gs : list SessionDirectoryGroup) :
  Forall (fun g => isCurrentDirectory g = false) gs ->
  StronglySorted (fun a b => (compareGroups localeCompare a b <= 0)%Z) gs ->
  StronglySorted
    (fun a b => (localeCompare (groupDirectory a) (groupDirectory b) <= 0)%Z) gs.
Proof.
  intros Hall Hs. induction Hs as [|g gs Hs IH Hg]; [constructor|].
  apply Forall_cons in Hall as [Hc Hall]. constructor; [now apply IH|].
  apply Forall_forall. intros y Hy.
  rewrite <- (compareGroups_others g y Hc).
  - exact (proj1 (Forall_forall _ _) Hg y Hy).
  - exact (proj1 (Forall_forall _ _) Hall y Hy).
Qed.

Lemma filter_key_length (q : string) (gs : list SessionDirectoryGroup) :
  NoDup (map normalizedDirectory gs) ->
  length (List.filter (fun g => String.eqb (normalizedDirectory g) q) gs) <= 1.
Proof.
  induction gs as [|g gs IH]; simpl; [lia|].
  rewrite NoDup_cons. intros [Hn Hnd].
  destruct (String.eqb (normalizedDirectory g) q) eqn:Hk; [|now apply IH].
  apply String.eqb_eq in Hk.
  destruct (List.filter _ gs) as [|g' r] eqn:Hf; [simpl; lia|].
  exfalso. apply Hn.
  assert (Hin : In g' (List.filter (fun g => String.eqb (normalizedDirectory g) q) gs))
    by (rewrite Hf; now left).
  apply filter_In in Hin as [Hin Hk']. apply String.eqb_eq in Hk'.
  rewrite Hk, <- Hk'. apply list_elem_of_In. now apply in_map.
Qed.

End GroupOrder.

(* ===================================================================== *)
(** * Properties of the session card and of the colour palette *)
(* ===================================================================== *)

Section CurrentTaskSelection.
Import SessionTypes AgentSessionCard.

Lemma hasStatus_true (st : TodoStatus) (t : TodoItem) :
  hasStatus st t = true <-> status t = st.
Proof. unfold hasStatus. apply bool_decide_eq_true. Qed.

Lemma hasStatus_false (st : TodoStatus) (t : TodoItem) :
  hasStatus st t = false <-> status t <> st.
Proof. unfold hasStatus. apply bool_decide_eq_false. Qed.

(** [find] returns the first element that satisfies the test. *)
Lemma find_first {A} (f : A -> bool) (l : list A) (x : A) :
  List.find f l = Some x ->
  exists before after,
    l = before ++ x :: after /\ f x = true /\ Forall (fun y => f y = false) before.
Proof.
  induction l as [|a l IH]; simpl; [discriminate|].
  destruct (f a) eqn:Hfa.
  - intros [= <-]. exists [], l. repeat split; [exact Hfa|constructor].
  - intros Hfind. destruct (IH Hfind) as (before & after & -> & Hfx & Hb).
    exists (a :: before), after. repeat split; [exact Hfx|now constructor].
Qed.

Lemma find_none {A} (f : A -> bool) (l : list A) :
  List.find f l = None -> Forall (fun y => f y = false) l.
Proof.
  induction l as [|a l IH]; simpl; [constructor|].
  destruct (f a) eqn:Hfa; [discriminate|]. intros Hfind. constructor; auto.
Qed.

(** The first element of [filter f l] is the first element of [l] that
    satisfies [f]. *)
Lemma filter_first {A} (f : A -> bool) (l : list A) (x : A) :
  List.filter f l !! 0 = Some x ->
  exists before after,
    l = before ++ x :: after /\ f x = true /\ Forall (fun y => f y = false) before.
Proof.
  induction l as [|a l IH]; simpl; [discriminate|].
  destruct (f a) eqn:Hfa.
  - intros [= <-]. exists [], l. repeat split; [exact Hfa|constructor].
  - intros Hl. destruct (IH Hl) as (before & after & -> & Hfx & Hb).
    exists (a :: before), after. repeat split; [exact Hfx|now constructor].
Qed.

(** The last element of [filter f l] is the last element of [l] that
    satisfies [f]. *)
Lemma filter_last {A} (f : A -> bool) (l : list A) (n : nat) (x : A) :
  length (List.filter f l) = S n ->
  List.filter f l !! n = Some x ->
  exists before after,
    l = before ++ x :: after /\ f x = true /\ Forall (fun y => f y = false) after.
Proof.
  revert n. induction l as [|a l IH]; intros n; simpl; [discriminate|].
  destruct (f a) eqn:Hfa.
  - simpl. intros [= Hlen]. destruct n as [|n]; simpl.
    + intros [= <-]. exists [], l. repeat split; [exact Hfa|].
      apply Forall_forall. intros y Hy.
      destruct (f y) eqn:Hfy; [|reflexivity].
      assert (Hin : In y (List.filter f l))
        by (apply filter_In; split; [now apply list_elem_of_In|exact Hfy]).
      destruct (List.filter f l); [destruct Hin|discriminate].
    + intros Hl. destruct (IH n Hlen Hl) as (before & after & -> & Hfx & Ha).
      exists (a :: before), after. now repeat split.
  - intros Hlen Hl. destruct (IH n Hlen Hl) as (before & after & -> & Hfx & Ha).
    exists (a :: before), after. now repeat split.
Qed.

Lemma filter_all {A} (f : A -> bool) (l : list A) :
  Forall (fun y => f y = true) l -> List.filter f l = l.
Proof.
  induction 1 as [|a l Ha _ IH]; [reflexivity|]. simpl. now rewrite Ha, IH.
Qed.

Lemma filter_nil_none {A} (f : A -> bool) (l : list A) :
  List.filter f l = [] -> Forall (fun y => f y = false) l.
Proof.
  induction l as [|a l IH]; simpl; [constructor|].
  destruct (f a) eqn:Hfa; [discriminate|]. intros Hl. constructor; auto.
Qed.

(** C7. For a todo list that is not empty the card surfaces one item: the
    first item in progress when there is one; otherwise the first pending
    item; otherwise the last completed item of the list.  With an empty
    list, or without a list, it surfaces none. *)
Theorem getTodoToShow_selects_current_task (todos : list TodoItem) :
  (todos <> [] ->
   exists t, getTodoToShow {| lastTodos := Some todos |} = Some t /\
             In t todos /\ CurrentTask todos t) /\
  getTodoToShow {| lastTodos := Some [] |} = None /\
  getTodoToShow {| lastTodos := None |} = None.
Proof.
  split; [|split; reflexivity].
  intros Hne. unfold getTodoToShow, hasTodos. cbn [lastTodos]. cbv beta iota.
  assert (Hpos : (0 <? length todos) = true) by (destruct todos; [congruence|reflexivity]).
  rewrite Hpos. simpl negb. cbv iota.
  destruct (List.find (hasStatus in_progress) todos) as [t|] eqn:Hfind.
  { destruct (find_first _ _ _ Hfind) as (before & after & Heq & Ht & Hb).
    exists t. split; [reflexivity|]. split; [rewrite Heq; apply in_elt|].
    eapply task_in_progress; [exact Heq|now apply hasStatus_true|].
    eapply Forall_impl; [exact Hb|]. intros x. apply hasStatus_false. }
  apply find_none in Hfind.
  assert (Hnip : Forall (fun x => status x <> in_progress) todos).
  { eapply Forall_impl; [exact Hfind|]. intros x. apply hasStatus_false. }
  destruct (List.filter (hasStatus pending) todos) as [|p ps] eqn:Hpend.
  - simpl. apply filter_nil_none in Hpend.
    assert (Hnp : Forall (fun x => status x <> pending) todos).
    { eapply Forall_impl; [exact Hpend|]. intros x. apply hasStatus_false. }
    assert (Hall : Forall (fun x => hasStatus completed x = true) todos).
    { apply Forall_forall. intros x Hx. apply hasStatus_true.
      pose proof (proj1 (Forall_forall _ _) Hnip x Hx).
      pose proof (proj1 (Forall_forall _ _) Hnp x Hx).
      destruct (status x) eqn:Hst; congruence. }
    rewrite (filter_all _ _ Hall).
    destruct (length todos) as [|n] eqn:Hlen; [subst; discriminate|].
    destruct (todos !! n) as [t|] eqn:Hn.
    2:{ apply lookup_ge_None in Hn. lia. }
    exists t. split; [reflexivity|].
    rewrite <- (filter_all _ _ Hall) in Hn, Hlen.
    destruct (filter_last _ _ _ _ Hlen Hn) as (before & after & Heq & Ht & Ha).
    split; [rewrite Heq; apply in_elt|].
    eapply task_last_completed; [exact Heq|now apply hasStatus_true|exact Hnip|exact Hnp|].
    eapply Forall_impl; [exact Ha|]. intros x. apply hasStatus_false.
  - simpl.
    assert (Hp : List.filter (hasStatus pending) todos !! 0 = Some p) by now rewrite Hpend.
    destruct (filter_first _ _ _ Hp) as (before & after & Heq & Ht & Hb).
    exists p. split; [reflexivity|]. split; [rewrite Heq; apply in_elt|].
    eapply task_first_pending; [exact Heq|now apply hasStatus_true|exact Hnip|].
    eapply Forall_impl; [exact Hb|]. intros x. apply hasStatus_false.
Qed.

End CurrentTaskSelection.

Section SessionColours.
Import SessionTypes.

(** C9. The colour of a session is the palette entry at its index modulo
    8: for every index [i >= 0] it is defined, it is the same for [i] and
    [i + 8], and it is a function of the index alone. *)
Theorem getSessionColor_periodic (i : Z) :
  (0 <= i)%Z ->
  length SESSION_COLORS = 8 /\
  getSessionColor i = SESSION_COLORS !! Z.to_nat (i mod 8) /\
  (exists c, getSessionColor i = Some c /\ In c SESSION_COLORS) /\
  getSessionColor (i + 8) = getSessionColor i.
Proof.
  intros Hi.
  assert (Hrem : forall j, (0 <= j)%Z ->
            getSessionColor j = SESSION_COLORS !! Z.to_nat (j mod 8)).
  { intros j Hj. unfold getSessionColor.
    change (Z.of_nat (length SESSION_COLORS)) with 8%Z. cbv zeta.
    rewrite Z.rem_mod_nonneg by lia.
    pose proof (Z.mod_pos_bound j 8 ltac:(lia)) as Hb.
    destruct (Z.ltb_spec (j mod 8) 0); [lia|reflexivity]. }
  split; [reflexivity|]. split; [now apply Hrem|]. split.
  - rewrite (Hrem i Hi).
    pose proof (Z.mod_pos_bound i 8 ltac:(lia)) as Hb.
    destruct (SESSION_COLORS !! Z.to_nat (i mod 8)) as [c|] eqn:Hc.
    + exists c. split; [reflexivity|].
      apply list_elem_of_In, list_elem_of_lookup. eauto.
    + apply lookup_ge_None in Hc. change (length SESSION_COLORS) with 8 in Hc. lia.
  - rewrite (Hrem i Hi), (Hrem (i + 8)%Z) by lia.
    replace ((i + 8) mod 8)%Z with (i mod 8)%Z; [reflexivity|].
    rewrite <- (Z.mod_add i 1 8) by lia. f_equal; lia.
Qed.

End SessionColours.

(* ===================================================================== *)
(** * The panels on sample data *)
(* ===================================================================== *)

Section OnSamples.
Import Samples.

(** ** Events panel *)

(** Receiving 501 events numbered 0..500 leaves 1..500 in the buffer. *)
Lemma events_buffer_keeps_most_recent_witness :
  length (AgentEventsPanel.events (AgentEventsPanel.initialState None))
    <= AgentEventsPanel.MAX_EVENTS /\
  length (AgentEventsPanel.events
            (AgentEventsPanel.receiveAll (AgentEventsPanel.initialState None)
               (numbered 501))) = 500 /\
  map AgentEventsPanel.timestamp
      (AgentEventsPanel.events
         (AgentEventsPanel.receiveAll (AgentEventsPanel.initialState None) (numbered 501)))
    = map Z.of_nat (seq 1 500).
Proof.
  assert (H0 : length (AgentEventsPanel.events (AgentEventsPanel.initialState None))
               <= AgentEventsPanel.MAX_EVENTS) by (simpl; lia).
  destruct (events_buffer_keeps_most_recent
              (AgentEventsPanel.initialState None) (numbered 501) H0)
    as (_ & _ & _ & _ & Hfull & _).
  split; [exact H0|].
  split; [apply Hfull; vm_compute; lia|].
  vm_compute. reflexivity.
Defined.

Lemma foreign_event_dropped_at_receipt_witness :
  AgentEventsPanel.events
    (AgentEventsPanel.onAgentEventReceived
       (AgentEventsPanel.initialState (Some "/repo"))
       {| AgentEventsPanel.payload := Some (eventIn "/elsewhere") |} 7%Z) = [] /\
  AgentEventsPanel.events
    (AgentEventsPanel.run (AgentEventsPanel.initialState (Some "/repo"))
       [AgentEventsPanel.Received
          {| AgentEventsPanel.payload := Some (eventIn "/elsewhere") |} 7%Z;
        AgentEventsPanel.ToggleFilterByRepo]) = [].
Proof.
  destruct (foreign_event_dropped_at_receipt
              (AgentEventsPanel.initialState (Some "/repo"))
              {| AgentEventsPanel.payload := Some (eventIn "/elsewhere") |} 7%Z
              (eventIn "/elsewhere") "/repo"
              eq_refl eq_refl ltac:(discriminate) eq_refl ltac:(discriminate))
    as (_ & Hev & _ & _ & _ & Hrun & _).
  split; [exact Hev|]. rewrite Hrun. reflexivity.
Defined.

(** With the filter off the same event is buffered. *)
Example foreign_event_kept_when_filter_off :
  map AgentEventsPanel.localIndex
    (AgentEventsPanel.events
       (AgentEventsPanel.run (AgentEventsPanel.initialState (Some "/repo"))
          [AgentEventsPanel.ToggleFilterByRepo;
           AgentEventsPanel.Received
             {| AgentEventsPanel.payload := Some (eventIn "/elsewhere") |} 7%Z])) = [0].
Proof. reflexivity. Qed.

(** Sequence numbers go on after a clear. *)
Example localIndex_after_clear :
  map AgentEventsPanel.localIndex
    (AgentEventsPanel.events
       (AgentEventsPanel.run (AgentEventsPanel.initialState None)
          (map (fun '(pe, now) => AgentEventsPanel.Received pe now) (numbered 3)
           ++ [AgentEventsPanel.ClearEvents]
           ++ map (fun '(pe, now) => AgentEventsPanel.Received pe now) (numbered 2))))
    = [3; 4].
Proof. reflexivity. Qed.

(** ** Sessions panel *)

Lemma compareCodeUnits_total (a b : string) :
  (Js.compareCodeUnits a b <= 0)%Z \/ (Js.compareCodeUnits b a <= 0)%Z.
Proof.
  revert b. induction a as [|x a IH]; intros [|y b]; simpl; try lia.
  destruct (Nat.ltb_spec (nat_of_ascii x) (nat_of_ascii y)),
           (Nat.ltb_spec (nat_of_ascii y) (nat_of_ascii x)); try lia.
  apply IH.
Qed.

Lemma compareCodeUnits_trans (a b c : string) :
  (Js.compareCodeUnits a b <= 0)%Z -> (Js.compareCodeUnits b c <= 0)%Z ->
  (Js.compareCodeUnits a c <= 0)%Z.
Proof.
  revert b c. induction a as [|x a IH]; intros [|y b] [|z c]; simpl; try lia.
  destruct (Nat.ltb_spec (nat_of_ascii x) (nat_of_ascii y)),
           (Nat.ltb_spec (nat_of_ascii y) (nat_of_ascii x)),
           (Nat.ltb_spec (nat_of_ascii y) (nat_of_ascii z)),
           (Nat.ltb_spec (nat_of_ascii z) (nat_of_ascii y)),
           (Nat.ltb_spec (nat_of_ascii x) (nat_of_ascii z)),
           (Nat.ltb_spec (nat_of_ascii z) (nat_of_ascii x)); try lia.
  apply IH.
Qed.

(** The specification's example: two sessions of [/repo], one active and
    one idle; the status filter ["active"] leaves one group, [/repo],
    holding the active session only. *)
Example active_filter_one_group :
  map (fun g => (AgentSessionsPanel.normalizedDirectory g, AgentSessionsPanel.sessions g))
      (AgentSessionsPanel.panelGroups Js.toLowerCaseAscii Js.compareCodeUnits
         [sessionA; sessionB] "active" "" None)
    = [("/repo", [sessionA])].
Proof. vm_compute. reflexivity. Qed.

Example sample_groups :
  map (fun g => (AgentSessionsPanel.groupDirectory g,
                 AgentSessionsPanel.normalizedDirectory g,
                 map (fun s => AgentSessionsPanel.sessionId (AgentSessionsPanel.session s))
                     (AgentSessionsPanel.sessions g),
                 AgentSessionsPanel.isCurrentDirectory g))
      (AgentSessionsPanel.panelGroups Js.toLowerCaseAscii Js.compareCodeUnits
         sampleSessions "all" "" (Some "\repo\"))
    = [ ("/repo", "/repo", ["a"; "b"; "e"], true);
        ("/work/zeta/", "/work/zeta", ["c"], false);
        ("\work\alpha", "/work/alpha", ["d"], false) ].
Proof. vm_compute. reflexivity. Qed.

(** The query ["BUILD"] finds the session named ["Build"]. *)
Lemma search_is_case_insensitive_substring_witness :
  "BUILD" <> EmptyString /\
  In sessionB
     (AgentSessionsPanel.filteredSessions Js.toLowerCaseAscii sampleSessions "all" "BUILD").
Proof.
  assert (Hq : "BUILD" <> EmptyString) by discriminate.
  destruct (search_is_case_insensitive_substring Js.toLowerCaseAscii
              sampleSessions "all" "BUILD" sessionB Hq) as [Hiff _].
  split; [exact Hq|]. apply Hiff.
  split; [simpl; tauto|]. split; [left; reflexivity|].
  exists EmptyString, " b /repo edit readme.md". reflexivity.
Defined.

Example search_finds_by_any_case :
  map (fun s => AgentSessionsPanel.sessionId (AgentSessionsPanel.session s))
      (AgentSessionsPanel.filteredSessions Js.toLowerCaseAscii sampleSessions "all" "ZeTa")
    = ["c"].
Proof. vm_compute. reflexivity. Qed.

(** ** Session card and colours *)

Example in_progress_before_pending :
  AgentSessionCard.getTodoToShow
    {| AgentSessionCard.lastTodos :=
         Some [todo "1" SessionTypes.completed; todo "2" SessionTypes.pending;
               todo "3" SessionTypes.in_progress; todo "4" SessionTypes.in_progress] |}
    = Some (todo "3" SessionTypes.in_progress).
Proof. reflexivity. Qed.

Example first_pending_without_in_progress :
  AgentSessionCard.getTodoToShow
    {| AgentSessionCard.lastTodos :=
         Some [todo "1" SessionTypes.completed; todo "2" SessionTypes.pending;
               todo "3" SessionTypes.completed; todo "4" SessionTypes.pending] |}
    = Some (todo "2" SessionTypes.pending).
Proof. reflexivity. Qed.

Example last_completed_otherwise :
  AgentSessionCard.getTodoToShow
    {| AgentSessionCard.lastTodos :=
         Some [todo "1" SessionTypes.completed; todo "2" SessionTypes.completed] |}
    = Some (todo "2" SessionTypes.completed).
Proof. reflexivity. Qed.

Lemma getSessionColor_periodic_witness :
  (0 <= 11)%Z /\
  SessionTypes.getSessionColor 11 = Some "#f59e0b" /\
  SessionTypes.getSessionColor (11 + 8) = SessionTypes.getSessionColor 11.
Proof.
  assert (H0 : (0 <= 11)%Z) by lia.
  destruct (getSessionColor_periodic 11 H0) as (_ & _ & _ & Hper).
  split; [exact H0|]. split; [reflexivity|exact Hper].
Defined.

End OnSamples.

(* ===================================================================== *)
(** * More on the events panel: chips, view, badge, expansion *)
(* ===================================================================== *)

Section EventsViewProperties.
Import AgentEventsPanel AgentEventsView.

Lemma compareCodeUnits_eq (a b : string) : Js.compareCodeUnits a b = 0%Z -> a = b.
Proof.
  revert b. induction a as [|x a IH]; intros [|y b]; simpl; try discriminate;
    [reflexivity|].
  destruct (Nat.ltb_spec (nat_of_ascii x) (nat_of_ascii y)); [discriminate|].
  destruct (Nat.ltb_spec (nat_of_ascii y) (nat_of_ascii x)); [discriminate|].
  intros Hc. f_equal; [|now apply IH].
  rewrite <- (ascii_nat_embedding x), <- (ascii_nat_embedding y). f_equal. lia.
Qed.

Lemma sorted_distinct_strict (l : list string) :
  NoDup l ->
  StronglySorted (fun a b => (Js.compareCodeUnits a b <= 0)%Z) l ->
  StronglySorted (fun a b => (Js.compareCodeUnits a b < 0)%Z) l.
Proof.
  intros Hnd Hs. induction Hs as [|x l Hs IH Hx]; [constructor|].
  apply NoDup_cons in Hnd as [Hnx Hnd]. constructor; [now apply IH|].
  apply Forall_forall. intros y Hy.
  pose proof (proj1 (Forall_forall _ _) Hx y Hy) as Hle.
  destruct (Z.eq_dec (Js.compareCodeUnits x y) 0%Z) as [Hz|Hz]; [|simpl in Hle; lia].
  apply compareCodeUnits_eq in Hz. subst y. contradiction.
Qed.

Lemma setAdd_elem_of (types : list string) (t x : string) :
  x ∈ setAdd types t <-> x ∈ types \/ x = t.
Proof.
  unfold setAdd. case_bool_decide as Hin.
  - split; [now left|]. intros [Hx| ->]; assumption.
  - rewrite elem_of_app, list_elem_of_singleton. reflexivity.
Qed.

Lemma setAdd_NoDup (types : list string) (t : string) :
  NoDup types -> NoDup (setAdd types t).
Proof.
  intros Hnd. unfold setAdd. case_bool_decide as Hin; [exact Hnd|].
  apply NoDup_app. repeat split; [exact Hnd| |apply NoDup_singleton].
  intros x Hx Hx'. apply list_elem_of_singleton in Hx'. now subst.
Qed.

Lemma collected_types (l : list EventEntry) (acc : list string) :
  NoDup acc ->
  NoDup (fold_left (fun types entry => setAdd types (eventType (event entry))) l acc) /\
  (forall t,
     t ∈ fold_left (fun types entry => setAdd types (eventType (event entry))) l acc <->
     t ∈ acc \/ exists entry, In entry l /\ eventType (event entry) = t).
Proof.
  revert acc. induction l as [|e l IH]; intros acc Hnd; simpl.
  - split; [exact Hnd|]. intros t. split; [now left|]. now intros [?|(? & [] & _)].
  - destruct (IH _ (setAdd_NoDup acc (eventType (event e)) Hnd)) as [Hnd' Hin].
    split; [exact Hnd'|]. intros t. rewrite Hin, setAdd_elem_of. split.
    + intros [[Ht| ->]|(entry & He & Ht)]; [now left| |].
      * right. exists e. split; [now left|reflexivity].
      * right. exists entry. split; [now right|exact Ht].
    + intros [Ht|(entry & [<-|He] & Ht)]; [now left; left| |].
      * left. right. now symmetry.
      * right. now exists entry.
Qed.

Lemma availableEventTypes_facts (st : PanelState) :
  NoDup (availableEventTypes st) /\
  (forall t, In t (availableEventTypes st) <->
             exists entry, In entry (events st) /\ eventType (event entry) = t).
Proof.
  unfold availableEventTypes. cbv zeta.
  set (types := fold_left _ (events st) []).
  destruct (collected_types (events st) [] (NoDup_nil_2 : NoDup [])) as [Hnd Hin].
  fold types in Hnd, Hin.
  pose proof (sort_Permutation Js.compareCodeUnits types) as Hperm.
  split; [now rewrite Hperm|].
  intros t. rewrite <- list_elem_of_In, Hperm, Hin. split.
  - intros [Ht|Ht]; [now apply elem_of_nil in Ht|exact Ht].
  - now right.
Qed.

(** X1. The chips of the type filter ([availableEventTypes]) are the event
    types that occur in the buffer, each once, in strictly ascending order
    of their code units. *)
Theorem availableEventTypes_sorted_distinct (st : PanelState) :
  NoDup (availableEventTypes st) /\
  StronglySorted (fun a b => (Js.compareCodeUnits a b < 0)%Z) (availableEventTypes st) /\
  (forall t, In t (availableEventTypes st) <->
             exists entry, In entry (events st) /\ eventType (event entry) = t) /\
  (availableEventTypes st = [] <-> events st = []).
Proof.
  destruct (availableEventTypes_facts st) as [Hnd Hmem].
  split; [exact Hnd|]. split.
  { apply sorted_distinct_strict; [exact Hnd|].
    apply sort_sorted; [apply compareCodeUnits_total|apply compareCodeUnits_trans]. }
  split; [exact Hmem|]. split.
  - intros Hnil. destruct (events st) as [|e l] eqn:He; [reflexivity|].
    assert (Ht : In (eventType (event e)) (availableEventTypes st)).
    { apply Hmem. exists e. split; [now left|reflexivity]. }
    rewrite Hnil in Ht. destruct Ht.
  - intros He. destruct (availableEventTypes st) as [|t ts] eqn:Hs; [reflexivity|].
    assert (Ht : In t (t :: ts)) by now left.
    apply Hmem in Ht as (entry & Hentry & _). rewrite He in Hentry. destruct Hentry.
Qed.

Lemma filter_sublist {A} (f : A -> bool) (l : list A) : List.filter f l `sublist_of` l.
Proof.
  induction l as [|x l IH]; simpl; [constructor|].
  destruct (f x); [now apply sublist_skip|now apply sublist_cons].
Qed.

Lemma filter_same_length {A} (f : A -> bool) (l : list A) :
  length (List.filter f l) = length l -> List.filter f l = l.
Proof.
  induction l as [|x l IH]; simpl; [reflexivity|].
  destruct (f x); simpl.
  - intros [= Hlen]. f_equal. now apply IH.
  - intros Hlen. pose proof (sublist_length _ _ (filter_sublist f l)). lia.
Qed.

Lemma filter_true {A} (f : A -> bool) (l : list A) :
  (forall x, In x l -> f x = true) -> List.filter f l = l.
Proof.
  induction l as [|x l IH]; intros Hall; simpl; [reflexivity|].
  rewrite (Hall x (or_introl eq_refl)). f_equal. apply IH. intros y Hy. apply Hall. now right.
Qed.

(** X2. A buffered event is on display exactly when the chip of its type is
    selected (every chip is, while the selection is empty).  The view is the
    buffer with rows left out, never reordered; selecting nothing and
    selecting every available type both show the whole buffer. *)
Theorem filteredEvents_follow_chips (st : PanelState) :
  (forall entry, In entry (filteredEvents st) <->
                 In entry (events st) /\ isSelected st (eventType (event entry)) = true) /\
  filteredEvents st `sublist_of` events st /\
  (selectedEventTypes st = ∅ -> filteredEvents st = events st) /\
  ((forall t, In t (availableEventTypes st) -> t ∈ selectedEventTypes st) ->
   filteredEvents st = events st) /\
  (forall t, isSelected st t = false ->
     Forall (fun entry => eventType (event entry) <> t) (filteredEvents st)).
Proof.
  assert (Hmem : forall entry, In entry (filteredEvents st) <->
            In entry (events st) /\ isSelected st (eventType (event entry)) = true).
  { intros entry. unfold filteredEvents, isSelected.
    destruct (decide (size (selectedEventTypes st) = 0)) as [Hz|Hnz].
    - rewrite (bool_decide_eq_true_2 _ Hz), orb_true_r. tauto.
    - rewrite (bool_decide_eq_false_2 _ Hnz), orb_false_r. apply filter_In. }
  split; [exact Hmem|]. split.
  { unfold filteredEvents. destruct (decide _); [reflexivity|apply filter_sublist]. }
  split.
  { intros Hsel. unfold filteredEvents. rewrite Hsel, decide_True; [reflexivity|].
    apply size_empty. }
  split.
  { intros Hall. unfold filteredEvents. destruct (decide _); [reflexivity|].
    apply filter_true. intros entry He. apply bool_decide_eq_true, Hall.
    apply (availableEventTypes_facts st). now exists entry. }
  intros t Ht. apply Forall_forall. intros entry He Heq.
  apply list_elem_of_In, Hmem in He as [_ Hsel]. congruence.
Qed.

Lemma step_length_bound (st : PanelState) (a : Action) :
  length (events st) <= MAX_EVENTS -> length (events (step st a)) <= MAX_EVENTS.
Proof.
  intros Hlen. destruct a; simpl; try exact Hlen; [|lia].
  unfold onAgentEventReceived. destruct (accepted st panelEvent); [|exact Hlen].
  simpl. apply length_appendEntry.
Qed.

Lemma run_length_bound (st : PanelState) (acts : list Action) :
  length (events st) <= MAX_EVENTS -> length (events (run st acts)) <= MAX_EVENTS.
Proof.
  revert st. induction acts as [|a acts IH]; intros st Hlen; [exact Hlen|].
  change (run st (a :: acts)) with (run (step st a) acts).
  apply IH. now apply step_length_bound.
Qed.

(** X3. Over the lifetime of a panel the count badge reads ["(max)"]
    exactly when the buffer is full and every buffered event is on display:
    a type filter that hides a row also hides the mark. *)
Theorem max_badge_iff_full_and_unfiltered (scope : option string) (acts : list Action) :
  showsMax (run (initialState scope) acts) = true <->
  length (events (run (initialState scope) acts)) = MAX_EVENTS /\
  filteredEvents (run (initialState scope) acts) = events (run (initialState scope) acts).
Proof.
  set (st := run (initialState scope) acts).
  assert (Hlen : length (events st) <= MAX_EVENTS).
  { apply run_length_bound. simpl. lia. }
  assert (Hsub : filteredEvents st `sublist_of` events st).
  { unfold filteredEvents. destruct (decide _); [reflexivity|apply filter_sublist]. }
  unfold showsMax. rewrite Nat.eqb_eq. split.
  - intros Hmax. pose proof (sublist_length _ _ Hsub) as Hle.
    split; [lia|].
    unfold filteredEvents in *. destruct (decide _); [reflexivity|].
    apply filter_same_length. lia.
  - intros [Hfull Heq]. now rewrite Heq.
Qed.

(** ** Expansion *)

Lemma last_appendEntry (prev : list EventEntry) (e : EventEntry) :
  last (appendEntry prev e) = Some e.
Proof.
  rewrite appendEntry_sliceLast. unfold Js.sliceLast.
  rewrite length_app. simpl length.
  rewrite drop_app_le by (unfold MAX_EVENTS; lia).
  apply last_snoc.
Qed.

Lemma appendEntry_In (prev : list EventEntry) (e x : EventEntry) :
  In x (appendEntry prev e) -> In x prev \/ x = e.
Proof.
  rewrite appendEntry_sliceLast. intros Hin.
  apply list_elem_of_In in Hin.
  assert (Hin' : x ∈ prev ++ [e]).
  { eapply elem_of_sublist; [exact Hin|apply sublist_drop]. }
  apply elem_of_app in Hin' as [Hp|He].
  - left. now apply list_elem_of_In.
  - right. now apply list_elem_of_singleton in He.
Qed.

(** Along a run of what the rendered panel allows, the expansion set and
    the buffer only hold sequence numbers that were handed out. *)
Lemma uiRun_numbers_handed_out (st : PanelState) (acts : list Action) :
  (forall i, i ∈ expandedEvents st -> i < eventCounterRef st) ->
  Forall (fun e => localIndex e < eventCounterRef st) (events st) ->
  uiRun st acts ->
  (forall i, i ∈ expandedEvents (run st acts) -> i < eventCounterRef (run st acts)) /\
  Forall (fun e => localIndex e < eventCounterRef (run st acts)) (events (run st acts)).
Proof.
  revert st. induction acts as [|a acts IH]; intros st Hexp Hev Hui; [now split|].
  destruct Hui as [Ha Hui].
  change (run st (a :: acts)) with (run (step st a) acts).
  apply IH; [| |exact Hui]; clear IH Hui.
  - destruct a; simpl step; simpl in Ha; try exact Hexp.
    + unfold onAgentEventReceived. destruct (accepted st panelEvent); [|exact Hexp].
      simpl. intros i Hi. apply Hexp in Hi. lia.
    + simpl. intros i. unfold toggle. case_decide; [set_solver|].
      rewrite elem_of_union, elem_of_singleton. intros [Hi| ->]; [now apply Hexp|].
      apply in_map_iff in Ha as (e & <- & He).
      assert (Hin : e ∈ events st).
      { apply list_elem_of_In in He. eapply elem_of_sublist; [exact He|].
        unfold filteredEvents. destruct (decide _); [reflexivity|apply filter_sublist]. }
      exact (proj1 (Forall_forall _ _) Hev e Hin).
    + simpl. set_solver.
  - destruct a; simpl step; try exact Hev; [|simpl; constructor].
    unfold onAgentEventReceived. destruct (accepted st panelEvent); [|exact Hev].
    simpl. apply Forall_forall. intros x Hx.
    apply list_elem_of_In, appendEntry_In in Hx as [Hx| ->]; [|simpl; lia].
    apply list_elem_of_In in Hx.
    pose proof (proj1 (Forall_forall _ _) Hev x Hx) as Hlt. simpl in *. lia.
Qed.

(** X4. Whatever was clicked before, a newly buffered event starts
    collapsed: rows are expanded by a click on a row of the view, so every
    expanded sequence number is one that was handed out, and the new row
    gets one that was not. *)
Theorem received_entry_starts_collapsed
    (scope : option string) (acts : list Action)
    (pe : PanelEvent) (now : Z) (ev : AgentEvent) :
  uiRun (initialState scope) acts ->
  accepted (run (initialState scope) acts) pe = Some ev ->
  (forall i, i ∈ expandedEvents (run (initialState scope) acts) ->
             i < eventCounterRef (run (initialState scope) acts)) /\
  exists entry,
    last (events (onAgentEventReceived (run (initialState scope) acts) pe now)) = Some entry /\
    event entry = ev /\
    localIndex entry = eventCounterRef (run (initialState scope) acts) /\
    isExpanded (onAgentEventReceived (run (initialState scope) acts) pe now) entry = false.
Proof.
  intros Hui Hacc.
  destruct (uiRun_numbers_handed_out (initialState scope) acts) as [Hexp _];
    [simpl; set_solver|simpl; constructor|exact Hui|].
  split; [exact Hexp|].
  rewrite (received_accepted _ _ now _ Hacc). simpl events.
  eexists. split; [apply last_appendEntry|]. simpl.
  repeat split. unfold isExpanded. simpl.
  apply bool_decide_eq_false. intros Hin. apply Hexp in Hin. lia.
Qed.

(** X5. Clearing empties the buffer, the expansion set and the chips, but
    not the selection of event types: with types still selected, the next
    event of another type is buffered and stays out of the view, under a
    chip that is not selected. *)
Theorem clearEvents_keeps_type_selection
    (st : PanelState) (pe : PanelEvent) (now : Z) (ev : AgentEvent) :
  accepted st pe = Some ev ->
  selectedEventTypes st <> ∅ ->
  eventType ev ∉ selectedEventTypes st ->
  events (clearEvents st) = [] /\
  expandedEvents (clearEvents st) = ∅ /\
  availableEventTypes (clearEvents st) = [] /\
  selectedEventTypes (clearEvents st) = selectedEventTypes st /\
  eventCounterRef (clearEvents st) = eventCounterRef st /\
  map event (events (onAgentEventReceived (clearEvents st) pe now)) = [ev] /\
  filteredEvents (onAgentEventReceived (clearEvents st) pe now) = [] /\
  availableEventTypes (onAgentEventReceived (clearEvents st) pe now) = [eventType ev] /\
  isSelected (onAgentEventReceived (clearEvents st) pe now) (eventType ev) = false.
Proof.
  intros Hacc Hsel Hty.
  assert (Hacc' : accepted (clearEvents st) pe = Some ev).
  { rewrite <- Hacc. now apply accepted_ext. }
  assert (Hsize : size (selectedEventTypes st) <> 0).
  { intros Hz. apply Hsel. now apply size_empty_inv, leibniz_equiv in Hz. }
  do 5 (split; [reflexivity|]).
  rewrite (received_accepted _ _ now _ Hacc').
  assert (Hone : appendEntry [] {| event := ev; timestamp := now;
                                   localIndex := eventCounterRef st |}
                 = [{| event := ev; timestamp := now; localIndex := eventCounterRef st |}])
    by reflexivity.
  unfold filteredEvents, availableEventTypes, isSelected. simpl. rewrite Hone. simpl.
  rewrite decide_False by exact Hsize.
  rewrite !bool_decide_eq_false_2 by assumption.
  repeat split.
Qed.

End EventsViewProperties.

(* ===================================================================== *)
(** * More on the sessions panel: colours of the cards *)
(* ===================================================================== *)

Section SessionColourMap.
Import AgentSessionsPanel AgentSessionsView SessionTypes.

Lemma get_set {V} (m : Js.Map V) (k k' : string) (v : V) :
  Js.get (Js.set m k v) k' = if String.eqb k k' then Some v else Js.get m k'.
Proof.
  induction m as [|[k0 v0] m IH]; simpl; [reflexivity|].
  destruct (String.eqb_spec k0 k) as [->|Hk0]; simpl.
  - now destruct (String.eqb k k').
  - rewrite IH. destruct (String.eqb_spec k0 k') as [->|Hk0']; [|reflexivity].
    destruct (String.eqb_spec k k'); [congruence|reflexivity].
Qed.

Lemma getSessionColor_index (i : nat) :
  getSessionColor (Z.of_nat i) = SESSION_COLORS !! (i mod 8).
Proof.
  unfold getSessionColor. change (Z.of_nat (length SESSION_COLORS)) with 8%Z. cbv zeta.
  rewrite Z.rem_mod_nonneg by lia.
  pose proof (Z.mod_pos_bound (Z.of_nat i) 8 ltac:(lia)) as Hb.
  destruct (Z.ltb_spec (Z.of_nat i mod 8) 0); [lia|].
  f_equal. change 8%Z with (Z.of_nat 8). rewrite <- Nat2Z.inj_mod. apply Nat2Z.id.
Qed.

Lemma palette_truthy (i : nat) :
  exists c, SESSION_COLORS !! (i mod 8) = Some c /\ Js.truthy c = true.
Proof.
  pose proof (Nat.mod_upper_bound i 8 ltac:(lia)) as Hb.
  destruct (i mod 8) as [|[|[|[|[|[|[|[|n]]]]]]]]; try lia;
    eexists; (split; [reflexivity|reflexivity]).
Qed.

Lemma palette_NoDup : NoDup SESSION_COLORS.
Proof. apply NoDup_ListNoDup. repeat constructor; simpl; intuition discriminate. Qed.

Lemma colorsFrom_get_other (l : list SessionWithEvents) (k : nat)
    (m : Js.Map (option string)) (sid : string) :
  Forall (fun s => sessionId (session s) <> sid) l ->
  Js.get (colorsFrom k l m) sid = Js.get m sid.
Proof.
  revert k m. induction l as [|s l IH]; intros k m Hall; [reflexivity|].
  apply Forall_cons in Hall as [Hs Hall]. simpl. rewrite IH by exact Hall.
  rewrite get_set. destruct (String.eqb_spec (sessionId (session s)) sid); congruence.
Qed.

(** The colour stored for a session id is that of the last index that has
    the id: later [set]s replace earlier ones. *)
Lemma colorsFrom_get_last (l : list SessionWithEvents) (k : nat)
    (m : Js.Map (option string)) (i : nat) (s : SessionWithEvents) :
  l !! i = Some s ->
  (forall j s', i < j -> l !! j = Some s' ->
                sessionId (session s') <> sessionId (session s)) ->
  Js.get (colorsFrom k l m) (sessionId (session s)) =
    Some (getSessionColor (Z.of_nat (k + i))).
Proof.
  revert k m i. induction l as [|s0 l IH]; intros k m i Hi Hlast; [discriminate|].
  destruct i as [|i]; simpl in *.
  - injection Hi as ->. rewrite colorsFrom_get_other.
    + rewrite get_set, String.eqb_refl. now rewrite Nat.add_0_r.
    + apply Forall_forall. intros s' Hs'.
      apply list_elem_of_lookup in Hs' as [j Hj]. apply (Hlast (S j)); [lia|exact Hj].
  - rewrite (IH (S k) _ i Hi).
    + do 3 f_equal. lia.
    + intros j s' Hj Hs'. apply (Hlast (S j)); [lia|exact Hs'].
Qed.

(** X6. Every card gets a colour of the palette: the one of the last
    position, in the filtered list, that holds the card's session id (a
    later session with the same id replaces the colour of an earlier one).
    The fallback colour is never needed. *)
Theorem sessionColor_of_last_index
    (filteredSessions : list SessionWithEvents) (i : nat) (s : SessionWithEvents) :
  filteredSessions !! i = Some s ->
  (forall j s', i < j -> filteredSessions !! j = Some s' ->
                sessionId (session s') <> sessionId (session s)) ->
  sessionColor (sessionColorMap filteredSessions) s = SESSION_COLORS !! (i mod 8) /\
  (exists c, sessionColor (sessionColorMap filteredSessions) s = Some c /\
             In c SESSION_COLORS) /\
  Js.get (sessionColorMap filteredSessions) (sessionId (session s))
    = Some (getSessionColor (Z.of_nat i)).
Proof.
  intros Hi Hlast.
  pose proof (colorsFrom_get_last filteredSessions 0 [] i s Hi Hlast) as Hget.
  simpl in Hget. fold (sessionColorMap filteredSessions) in Hget.
  destruct (palette_truthy i) as (c & Hc & Htruthy).
  assert (Hcol : sessionColor (sessionColorMap filteredSessions) s
                 = SESSION_COLORS !! (i mod 8)).
  { unfold sessionColor. rewrite Hget, getSessionColor_index, Hc. simpl.
    unfold Js.orOpt. simpl. now rewrite Htruthy. }
  split; [exact Hcol|]. split; [|exact Hget].
  exists c. split; [now rewrite Hcol|].
  apply list_elem_of_In, list_elem_of_lookup. eauto.
Qed.

(** X7. When the session ids are pairwise different, two cards have the
    same colour exactly when their positions in the filtered list differ by
    a multiple of 8; so up to eight sessions get eight different colours. *)
Theorem sessionColor_distinct_ids
    (filteredSessions : list SessionWithEvents) (i j : nat) (s s' : SessionWithEvents) :
  NoDup (map (fun x => sessionId (session x)) filteredSessions) ->
  filteredSessions !! i = Some s ->
  filteredSessions !! j = Some s' ->
  (sessionColor (sessionColorMap filteredSessions) s =
   sessionColor (sessionColorMap filteredSessions) s' <-> i mod 8 = j mod 8) /\
  (length filteredSessions <= 8 -> i <> j ->
   sessionColor (sessionColorMap filteredSessions) s <>
   sessionColor (sessionColorMap filteredSessions) s').
Proof.
  intros Hnd Hi Hj.
  assert (Hlast : forall a x, filteredSessions !! a = Some x ->
            forall b y, a < b -> filteredSessions !! b = Some y ->
                        sessionId (session y) <> sessionId (session x)).
  { intros a x Ha b y Hab Hb Heq.
    assert (Hab' : a = b); [|lia].
    eapply (NoDup_lookup _ a b (sessionId (session x)) Hnd).
    - change map with (@fmap list _). now rewrite list_lookup_fmap, Ha.
    - change map with (@fmap list _). rewrite list_lookup_fmap, Hb. simpl. now rewrite Heq. }
  assert (Hci : sessionColor (sessionColorMap filteredSessions) s
                = SESSION_COLORS !! (i mod 8)).
  { pose proof (colorsFrom_get_last filteredSessions 0 [] i s Hi (Hlast i s Hi)) as Hget.
    simpl in Hget. destruct (palette_truthy i) as (c & Hc & Ht).
    unfold sessionColor, sessionColorMap. rewrite Hget, getSessionColor_index, Hc. simpl.
    unfold Js.orOpt. simpl. now rewrite Ht. }
  assert (Hcj : sessionColor (sessionColorMap filteredSessions) s'
                = SESSION_COLORS !! (j mod 8)).
  { pose proof (colorsFrom_get_last filteredSessions 0 [] j s' Hj (Hlast j s' Hj)) as Hget.
    simpl in Hget. destruct (palette_truthy j) as (c & Hc & Ht).
    unfold sessionColor, sessionColorMap. rewrite Hget, getSessionColor_index, Hc. simpl.
    unfold Js.orOpt. simpl. now rewrite Ht. }
  assert (Hiff : SESSION_COLORS !! (i mod 8) = SESSION_COLORS !! (j mod 8)
                 <-> i mod 8 = j mod 8).
  { split; [|now intros ->]. intros Heq.
    destruct (palette_truthy i) as (c & Hc & _).
    eapply (NoDup_lookup _ _ _ c palette_NoDup); [exact Hc|now rewrite <- Heq]. }
  rewrite Hci, Hcj. split; [exact Hiff|].
  intros Hlen Hij Heq. apply Hiff in Heq.
  apply lookup_lt_Some in Hi, Hj.
  rewrite !Nat.mod_small in Heq by lia. contradiction.
Qed.

End SessionColourMap.

(* ===================================================================== *)
(** * More on the sessions panel: what a group carries and shows *)
(* ===================================================================== *)

Section GroupsView.
Import AgentSessionsPanel AgentSessionsView.

Variable toLowerCase : string -> string.
Variable localeCompare : string -> string -> Z.

Lemma pushSession_activity (g : SessionDirectoryGroup) (s : SessionWithEvents) :
  ActivityKept g -> ActivityKept (pushSession g s).
Proof.
  unfold ActivityKept. intros (H0 & Hle & Hmax). unfold pushSession. simpl.
  fold (activityOf s).
  destruct (Z.ltb_spec (groupLastActivity g) (activityOf s)) as [Hlt|Hge].
  - split; [lia|]. split.
    + intros x Hx. apply in_app_or in Hx as [Hx|[<-|[]]]; [|lia].
      pose proof (Hle x Hx). lia.
    + right. exists s. split; [|reflexivity]. apply in_or_app. right. now left.
  - split; [exact H0|]. split.
    + intros x Hx. apply in_app_or in Hx as [Hx|[<-|[]]]; [now apply Hle|lia].
    + destruct Hmax as [Hz|(x & Hx & Heq)]; [now left|].
      right. exists x. split; [|exact Heq]. apply in_or_app. now left.
Qed.

Lemma addSession_shape (m : Js.Map SessionDirectoryGroup) (s : SessionWithEvents) :
  (forall k g, In (k, g) m -> ActivityKept g /\ LabelledByFirst g) ->
  forall k g, In (k, g) (addSession m s) -> ActivityKept g /\ LabelledByFirst g.
Proof.
  intros Hm k g. unfold addSession.
  destruct (Js.get m (normalizedKey s)) as [g0|] eqn:Hget.
  - destruct (set_found m _ g0 (pushSession g0 s) Hget) as (m1 & m2 & -> & ->).
    intros Hin. apply in_app_or in Hin as [Hin|[[= <- <-]|Hin]].
    + apply (Hm k). apply in_or_app. now left.
    + destruct (Hm _ g0 (in_elt _ _ _)) as [Hact (s0 & rest & Hs & Hl)].
      split; [now apply pushSession_activity|].
      exists s0, (rest ++ [s]). simpl. now rewrite Hs.
    + apply (Hm k). apply in_or_app. right. now right.
  - rewrite set_set_fresh by exact Hget.
    intros Hin. apply in_app_or in Hin as [Hin|[[= <- <-]|[]]]; [now apply (Hm k)|].
    split.
    + apply pushSession_activity. unfold ActivityKept. simpl.
      split; [lia|]. split; [intros x []|now left].
    + exists s, []. split; reflexivity.
Qed.

Lemma fold_addSession_shape (l : list SessionWithEvents) (m : Js.Map SessionDirectoryGroup) :
  (forall k g, In (k, g) m -> ActivityKept g /\ LabelledByFirst g) ->
  forall k g, In (k, g) (fold_left addSession l m) -> ActivityKept g /\ LabelledByFirst g.
Proof.
  revert m. induction l as [|s l IH]; intros m Hm; [exact Hm|].
  simpl. apply IH. now apply addSession_shape.
Qed.

Lemma panelGroups_In (allSessions : list SessionWithEvents)
    (statusFilter searchQuery : string) (repositoryPath : option string)
    (g : SessionDirectoryGroup) :
  In g (panelGroups toLowerCase localeCompare allSessions statusFilter searchQuery
          repositoryPath) <->
  exists k g0,
    In (k, g0) (fold_left addSession
                  (filteredSessions toLowerCase allSessions statusFilter searchQuery) []) /\
    g = markCurrent (normalizedRepositoryPath repositoryPath) g0.
Proof.
  unfold panelGroups, sessionsByDirectory. cbv zeta.
  rewrite <- list_elem_of_In, sort_Permutation, list_elem_of_In.
  unfold Js.values. rewrite map_map, in_map_iff. split.
  - intros ([k g0] & <- & Hin). now exists k, g0.
  - intros (k & g0 & Hin & ->). now exists (k, g0).
Qed.

(** X8. Every group the panel shows is labelled with the directory, as
    written, of its first session; its key is that label normalized; and
    the activity it carries is the latest among its sessions, or 0 when
    none of them has a later one. *)
Theorem groups_label_and_latest_activity
    (allSessions : list SessionWithEvents) (statusFilter searchQuery : string)
    (repositoryPath : option string) :
  Forall
    (fun g =>
       (exists s0 rest, sessions g = s0 :: rest /\
                        groupDirectory g = rawDirectory s0 /\
                        normalizedDirectory g = normalizePath (groupDirectory g)) /\
       (0 <= groupLastActivity g)%Z /\
       (forall s, In s (sessions g) -> (activityOf s <= groupLastActivity g)%Z) /\
       (groupLastActivity g = 0%Z \/
        exists s, In s (sessions g) /\ activityOf s = groupLastActivity g))
    (panelGroups toLowerCase localeCompare allSessions statusFilter searchQuery
       repositoryPath).
Proof.
  apply Forall_forall. intros g Hg. apply list_elem_of_In in Hg.
  pose proof Hg as Hg'. apply panelGroups_In in Hg' as (k & g0 & Hin & ->).
  destruct (fold_addSession_shape _ [] (fun _ _ (H : In _ []) => match H with end) k g0 Hin)
    as [Hact (s0 & rest & Hs & Hl)].
  pose proof (Grouped_fold (filteredSessions toLowerCase allSessions statusFilter searchQuery)
                [] [] Grouped_nil) as HG.
  simpl in HG. destruct (grouped_groups _ _ HG k g0 Hin) as (Hk & Hmem & _).
  simpl. split; [|exact Hact].
  exists s0, rest. split; [exact Hs|]. split; [exact Hl|].
  assert (Hs0 : In s0 (sessions g0)) by (rewrite Hs; now left).
  rewrite Hmem in Hs0. apply filter_In in Hs0 as [_ Hkey]. apply String.eqb_eq in Hkey.
  rewrite Hk, <- Hkey, Hl. apply normalizedKey_normalizePath.
Qed.

(** What the grouping keeps, for the groups as the panel shows them. *)
Lemma panelGroups_facts (allSessions : list SessionWithEvents)
    (statusFilter searchQuery : string) (repositoryPath : option string) :
  NoDup (map normalizedDirectory
           (panelGroups toLowerCase localeCompare allSessions statusFilter searchQuery
              repositoryPath)) /\
  (forall g, In g (panelGroups toLowerCase localeCompare allSessions statusFilter searchQuery
                     repositoryPath) ->
     sessions g = List.filter (hasKey (normalizedDirectory g))
                    (filteredSessions toLowerCase allSessions statusFilter searchQuery) /\
     sessions g <> [] /\
     (isCurrentDirectory g = true <->
      normalizedRepositoryPath repositoryPath = Some (normalizedDirectory g))) /\
  (forall s, In s (filteredSessions toLowerCase allSessions statusFilter searchQuery) ->
     exists g, In g (panelGroups toLowerCase localeCompare allSessions statusFilter
                       searchQuery repositoryPath) /\
               normalizedDirectory g = normalizedKey s) /\
  Permutation
    (concat (map sessions
               (panelGroups toLowerCase localeCompare allSessions statusFilter searchQuery
                  repositoryPath)))
    (filteredSessions toLowerCase allSessions statusFilter searchQuery).
Proof.
  destruct (panelGroups_Permutation toLowerCase localeCompare
              allSessions statusFilter searchQuery repositoryPath) as (m & Hg & Hperm & _).
  destruct (marked_groups m _ (normalizedRepositoryPath repositoryPath) Hg)
    as (Hkeys & Hsess & Hin).
  split; [rewrite (Permutation_map normalizedDirectory Hperm), Hkeys; apply Hg|].
  split.
  { intros g Hgin. apply (Permutation_in _ Hperm) in Hgin.
    destruct (Hin g Hgin) as (Hs & Hne & Hc). split; [exact Hs|]. split; [exact Hne|].
    rewrite Hc. destruct (normalizedRepositoryPath repositoryPath) as [q|].
    - rewrite String.eqb_eq. split; congruence.
    - split; discriminate. }
  split.
  { intros s Hs. pose proof (grouped_all _ _ Hg s Hs) as Hk.
    rewrite <- Hkeys in Hk. apply in_map_iff in Hk as (g & Hgk & Hgin).
    apply (Permutation_in _ (Permutation_sym Hperm)) in Hgin. now exists g. }
  rewrite (Permutation_map sessions Hperm), Hsess. apply Hg.
Qed.

Lemma length_concat_nonempty {A} (ls : list (list A)) :
  Forall (fun l => l <> []) ls -> length ls <= length (concat ls).
Proof.
  induction 1 as [|l ls Hl _ IH]; simpl; [lia|].
  rewrite length_app. destruct l; [congruence|simpl; lia].
Qed.

(** X13. The panel shows no group exactly when no session passes the
    filters; otherwise there are at most as many groups as filtered
    sessions, none of them empty, and the cards add up to the filtered
    sessions. *)
Theorem groups_empty_iff_nothing_filtered
    (allSessions : list SessionWithEvents) (statusFilter searchQuery : string)
    (repositoryPath : option string) :
  (panelGroups toLowerCase localeCompare allSessions statusFilter searchQuery repositoryPath
     = [] <->
   filteredSessions toLowerCase allSessions statusFilter searchQuery = []) /\
  length (panelGroups toLowerCase localeCompare allSessions statusFilter searchQuery
            repositoryPath)
    <= length (filteredSessions toLowerCase allSessions statusFilter searchQuery) /\
  Forall (fun g => 1 <= length (sessions g))
    (panelGroups toLowerCase localeCompare allSessions statusFilter searchQuery
       repositoryPath) /\
  length (concat (map sessions
                    (panelGroups toLowerCase localeCompare allSessions statusFilter
                       searchQuery repositoryPath)))
    = length (filteredSessions toLowerCase allSessions statusFilter searchQuery).
Proof.
  destruct (panelGroups_facts allSessions statusFilter searchQuery repositoryPath)
    as (_ & Hmem & Hall & Hperm).
  set (gs := panelGroups toLowerCase localeCompare allSessions statusFilter searchQuery
               repositoryPath) in *.
  set (l := filteredSessions toLowerCase allSessions statusFilter searchQuery) in *.
  assert (Hne : Forall (fun x => x <> []) (map sessions gs)).
  { apply Forall_forall. intros x Hx.
    apply list_elem_of_In, in_map_iff in Hx as (g & <- & Hg). now apply Hmem. }
  assert (Hlen : length (concat (map sessions gs)) = length l)
    by now apply Permutation_length.
  split.
  { split.
    - intros Hnil. rewrite Hnil in Hperm. simpl in Hperm.
      now apply Permutation_nil in Hperm.
    - intros Hnil. destruct gs as [|g gs'] eqn:Hgs; [reflexivity|].
      destruct (Hmem g (or_introl eq_refl)) as (Hs & Hsne & _).
      rewrite Hnil in Hs. simpl in Hs. congruence. }
  split.
  { rewrite <- Hlen. pose proof (length_concat_nonempty _ Hne) as Hc.
    now rewrite length_map in Hc. }
  split; [|exact Hlen].
  apply Forall_forall. intros g Hg. apply list_elem_of_In in Hg.
  destruct (Hmem g Hg) as (_ & Hsne & _). destruct (sessions g); [congruence|simpl; lia].
Qed.

(** X10. The header of a group is left out only for a single group that is
    the current directory, which happens exactly when some session passes the
    filters and all that do are in the current repository; the group then
    holds all of them. *)
Theorem header_hidden_iff_all_in_current_repository
    (allSessions : list SessionWithEvents) (statusFilter searchQuery : string)
    (repositoryPath : option string) :
  ((exists g,
      In g (panelGroups toLowerCase localeCompare allSessions statusFilter searchQuery
              repositoryPath) /\
      shouldShowDirectoryHeader
        (panelGroups toLowerCase localeCompare allSessions statusFilter searchQuery
           repositoryPath) g = false) <->
   filteredSessions toLowerCase allSessions statusFilter searchQuery <> [] /\
   forall s, In s (filteredSessions toLowerCase allSessions statusFilter searchQuery) ->
             normalizedRepositoryPath repositoryPath = Some (normalizedKey s)) /\
  (forall g,
     In g (panelGroups toLowerCase localeCompare allSessions statusFilter searchQuery
             repositoryPath) ->
     shouldShowDirectoryHeader
       (panelGroups toLowerCase localeCompare allSessions statusFilter searchQuery
          repositoryPath) g = false ->
     panelGroups toLowerCase localeCompare allSessions statusFilter searchQuery
       repositoryPath = [g] /\
     isCurrentDirectory g = true /\
     sessions g = filteredSessions toLowerCase allSessions statusFilter searchQuery).
Proof.
  destruct (panelGroups_facts allSessions statusFilter searchQuery repositoryPath)
    as (Hnd & Hmem & Hall & Hperm).
  set (gs := panelGroups toLowerCase localeCompare allSessions statusFilter searchQuery
               repositoryPath) in *.
  set (l := filteredSessions toLowerCase allSessions statusFilter searchQuery) in *.
  set (p := normalizedRepositoryPath repositoryPath) in *.
  assert (Hhidden : forall g, In g gs -> shouldShowDirectoryHeader gs g = false ->
            gs = [g] /\ isCurrentDirectory g = true /\ sessions g = l).
  { intros g Hg Hshow. unfold shouldShowDirectoryHeader in Hshow.
    apply orb_false_iff in Hshow as [Hlen Hcur].
    apply Nat.ltb_ge in Hlen. apply negb_false_iff in Hcur.
    assert (Hgs : gs = [g]).
    { destruct gs as [|g1 [|g2 r]]; [destruct Hg| |simpl in Hlen; lia].
      destruct Hg as [->|[]]. reflexivity. }
    split; [exact Hgs|]. split; [exact Hcur|].
    destruct (Hmem g Hg) as (Hs & _ & _). rewrite Hs.
    apply filter_true. intros s Hsl. destruct (Hall s Hsl) as (g' & Hg' & Hk).
    rewrite Hgs in Hg'. destruct Hg' as [<-|[]]. unfold hasKey.
    rewrite Hk. apply String.eqb_refl. }
  split; [|exact Hhidden]. split.
  - intros (g & Hg & Hshow). destruct (Hhidden g Hg Hshow) as (Hgs & Hcur & Hs).
    destruct (Hmem g Hg) as (Hfil & Hne & Hflag). split; [now rewrite <- Hs|].
    intros s Hsl. apply Hflag in Hcur. rewrite Hcur. f_equal.
    rewrite <- Hs, Hfil in Hsl. apply filter_In in Hsl as [_ Hk].
    symmetry. now apply String.eqb_eq.
  - intros [Hne Hcur].
    assert (Hkeys : forall g, In g gs -> p = Some (normalizedDirectory g)).
    { intros g Hg. destruct (Hmem g Hg) as (Hfil & Hsne & _).
      destruct (sessions g) as [|s r] eqn:Hs; [congruence|].
      assert (Hin : In s (List.filter (hasKey (normalizedDirectory g)) l))
        by (rewrite <- Hfil; now left).
      apply filter_In in Hin as [Hsl Hk]. apply String.eqb_eq in Hk.
      rewrite <- Hk. now apply Hcur. }
    destruct l as [|s0 l'] eqn:Hl; [congruence|].
    destruct (Hall s0 (or_introl eq_refl)) as (g & Hg & _).
    exists g. split; [exact Hg|]. unfold shouldShowDirectoryHeader.
    apply orb_false_iff. split.
    + apply Nat.ltb_ge.
      destruct gs as [|g1 [|g2 r]] eqn:Hgs; simpl; try lia.
      exfalso. simpl in Hnd. apply NoDup_cons in Hnd as [Hn _]. apply Hn.
      assert (H1 := Hkeys g1 (or_introl eq_refl)).
      assert (H2 := Hkeys g2 (or_intror (or_introl eq_refl))).
      rewrite H1 in H2. injection H2 as ->. now left.
    + apply negb_false_iff. apply (Hmem g Hg). now apply Hkeys.
Qed.


Lemma replaceBackslashes_id (x : string) :
  containsBackslash x = false -> replaceBackslashes x = x.
Proof.
  induction x as [|c x IH]; [reflexivity|].
  cbn [containsBackslash replaceBackslashes]. intros Hx.
  apply orb_false_iff in Hx as [Hc Hx]. now rewrite Hc, IH.
Qed.




End GroupsView.

(* ===================================================================== *)
(** * More on the sessions panel: the name on a group's header *)
(* ===================================================================== *)

Section DirectoryName.
Import AgentSessionsPanel AgentSessionsView.

Lemma splitSlash_nonempty (s : string) : splitSlash s <> [].
Proof.
  destruct s as [|c s]; simpl; [discriminate|].
  destruct (Ascii.eqb c "/"%char); [discriminate|].
  destruct (splitSlash s); discriminate.
Qed.

Lemma splitSlash_cons (c : ascii) (s : string) :
  exists piece pieces,
    splitSlash s = piece :: pieces /\
    splitSlash (String c s) =
      if Ascii.eqb c "/"%char then EmptyString :: piece :: pieces
      else String c piece :: pieces.
Proof.
  destruct (splitSlash s) as [|piece pieces] eqn:Hs;
    [now apply splitSlash_nonempty in Hs|].
  exists piece, pieces. split; [reflexivity|]. simpl. now rewrite Hs.
Qed.

(** Trailing slashes only add empty pieces at the end. *)
Lemma splitSlash_strip (x : string) :
  exists k, splitSlash x = splitSlash (stripTrailingSlashes x) ++ replicate k EmptyString.
Proof.
  induction x as [|c x (k & IH)]; [exists 0; reflexivity|].
  rewrite stripTrailingSlashes_cons.
  destruct (splitSlash_cons c x) as (piece & pieces & Hs & Hcons).
  destruct (Ascii.eqb c "/"%char) eqn:Hc; simpl andb.
  - destruct (stripTrailingSlashes x) as [|c' r] eqn:Hr; simpl negb; cbv iota.
    + exists (S k). rewrite Hcons, <- Hs, IH. reflexivity.
    + exists k. rewrite Hcons, <- Hs, IH. simpl splitSlash at 2. rewrite Hc.
      reflexivity.
  - exists k. rewrite Hcons.
    destruct (splitSlash_cons c (stripTrailingSlashes x)) as (piece' & pieces' & Hs' & Hcons').
    rewrite Hcons', Hc. rewrite Hs, Hs' in IH. injection IH as -> ->. reflexivity.
Qed.

Lemma filter_truthy_replicate (l : list string) (k : nat) :
  List.filter Js.truthy (l ++ replicate k EmptyString) = List.filter Js.truthy l.
Proof.
  rewrite List.filter_app.
  assert (Hk : List.filter Js.truthy (replicate k EmptyString) = []).
  { induction k as [|k IH]; [reflexivity|exact IH]. }
  now rewrite Hk, app_nil_r.
Qed.

Lemma pathSegments_strip (x : string) :
  List.filter Js.truthy (splitSlash (stripTrailingSlashes x))
  = List.filter Js.truthy (splitSlash x).
Proof.
  destruct (splitSlash_strip x) as (k & ->). now rewrite filter_truthy_replicate.
Qed.

(** The segments of a path are those of its key. *)
Lemma pathSegments_normalizePath (d : string) :
  pathSegments (normalizePath d) = pathSegments d.
Proof.
  destruct (onlySeparators d) eqn:Hd; [now rewrite normalizePath_fallback|].
  destruct (normalizePath_proper d Hd) as [-> _]. unfold pathSegments.
  rewrite replaceBackslashes_id
    by apply stripTrailingSlashes_no_backslash, replaceBackslashes_no_backslash.
  apply pathSegments_strip.
Qed.

Lemma pathSegments_cons (c : ascii) (d : string) :
  pathSegments (String c d) =
    if isSeparator c then pathSegments d
    else match splitSlash (replaceBackslashes d) with
         | piece :: pieces => String c piece :: List.filter Js.truthy pieces
         | [] => [String c EmptyString]
         end.
Proof.
  unfold pathSegments. cbn [replaceBackslashes].
  destruct (splitSlash_cons (if Ascii.eqb c "\"%char then "/"%char else c)
              (replaceBackslashes d)) as (piece & pieces & Hs & Hcons).
  rewrite Hcons, Hs.
  destruct (isSeparator c) eqn:Hc.
  - rewrite (replaced_separator c Hc). reflexivity.
  - rewrite (replaced_other c Hc).
    assert (Hsl : Ascii.eqb c "/"%char = false).
    { unfold isSeparator in Hc. now apply orb_false_iff in Hc as [? _]. }
    rewrite Hsl. reflexivity.
Qed.

(** A path has no segment exactly when it is made of separators only. *)
Lemma pathSegments_nil (d : string) :
  pathSegments d = [] <-> onlySeparators d = true.
Proof.
  induction d as [|c d IH]; [simpl; tauto|].
  rewrite pathSegments_cons. cbn [onlySeparators].
  destruct (isSeparator c); simpl; [exact IH|].
  destruct (splitSlash (replaceBackslashes d)); split; discriminate.
Qed.

Lemma splitSlash_pieces_clean (d : string) :
  Forall (fun piece => containsSeparator piece = false)
    (splitSlash (replaceBackslashes d)).
Proof.
  induction d as [|c d IH]; [repeat constructor|].
  cbn [replaceBackslashes].
  destruct (splitSlash_cons (if Ascii.eqb c "\"%char then "/"%char else c)
              (replaceBackslashes d)) as (piece & pieces & Hs & Hcons).
  rewrite Hcons. rewrite Hs in IH. apply Forall_cons in IH as [Hp Hps].
  destruct (isSeparator c) eqn:Hc.
  - rewrite (replaced_separator c Hc). simpl. repeat constructor; assumption.
  - rewrite (replaced_other c Hc).
    assert (Hsl : Ascii.eqb c "/"%char = false).
    { unfold isSeparator in Hc. now apply orb_false_iff in Hc as [? _]. }
    rewrite Hsl. constructor; [|exact Hps]. simpl. now rewrite Hc, Hp.
Qed.

(** The name of a path that has a segment is its last segment. *)
Lemma directoryNameOf_last (d : string) (name : string) :
  last (pathSegments d) = Some name -> directoryNameOf d = name.
Proof.
  intros Hlast. unfold directoryNameOf.
  destruct (String.eqb_spec d UNKNOWN_DIRECTORY_LABEL) as [->|Hd].
  - vm_compute in Hlast. now injection Hlast as <-.
  - cbv zeta. rewrite last_lookup in Hlast.
    assert (Hname : In name (pathSegments d)).
    { apply list_elem_of_In, list_elem_of_lookup. eauto. }
    apply filter_In in Hname as [_ Ht].
    destruct (length (pathSegments d)) as [|n] eqn:Hlen.
    + destruct (pathSegments d); [discriminate|discriminate].
    + simpl in Hlast. rewrite Hlast. unfold Js.orOpt. simpl. now rewrite Ht.
Qed.

(** X9. The name on a group's header depends on the group's key only: a
    directory and its normalized form have the same name.  For a directory
    with a character other than a separator it is the last path segment,
    which is not empty and holds no separator; a directory made of
    separators only is shown as written. *)
Theorem directoryName_is_last_segment_of_key (d : string) :
  directoryNameOf (normalizePath d) = directoryNameOf d /\
  (onlySeparators d = true -> directoryNameOf d = d) /\
  (onlySeparators d = false ->
   last (pathSegments d) = Some (directoryNameOf d) /\
   directoryNameOf d <> EmptyString /\
   containsSeparator (directoryNameOf d) = false) /\
  (forall g, normalizedDirectory g = normalizePath (groupDirectory g) ->
             directoryName g = directoryNameOf (normalizedDirectory g)).
Proof.
  assert (Hproper : onlySeparators d = false ->
            exists name, last (pathSegments d) = Some name /\ directoryNameOf d = name).
  { intros Hd. destruct (last (pathSegments d)) as [name|] eqn:Hlast.
    - exists name. split; [reflexivity|now apply directoryNameOf_last].
    - apply last_None in Hlast. apply pathSegments_nil in Hlast. congruence. }
  assert (Hkey : forall x, directoryNameOf (normalizePath x) = directoryNameOf x).
  { intros x. destruct (onlySeparators x) eqn:Hx; [now rewrite normalizePath_fallback|].
    destruct (last (pathSegments x)) as [name|] eqn:Hlast.
    - rewrite (directoryNameOf_last x name Hlast). apply directoryNameOf_last.
      now rewrite pathSegments_normalizePath.
    - apply last_None in Hlast. apply pathSegments_nil in Hlast. congruence. }
  split; [apply Hkey|]. split; [|split].
  - intros Hd. unfold directoryNameOf.
    destruct (String.eqb_spec d UNKNOWN_DIRECTORY_LABEL) as [->|_]; [reflexivity|].
    cbv zeta. apply pathSegments_nil in Hd. rewrite Hd. reflexivity.
  - intros Hd. destruct (Hproper Hd) as (name & Hlast & Hname). rewrite Hname.
    split; [exact Hlast|].
    assert (Hin : In name (pathSegments d)).
    { apply last_Some in Hlast as [l' Hl]. rewrite Hl. apply in_or_app. right. now left. }
    apply filter_In in Hin as [Hin Ht]. split; [now apply truthy_true|].
    apply list_elem_of_In in Hin.
    exact (proj1 (Forall_forall _ _) (splitSlash_pieces_clean d) name Hin).
  - intros g Hg. unfold directoryName. now rewrite Hg, Hkey.
Qed.

End DirectoryName.

(* ===================================================================== *)
(** * More on the sessions panel: age of the last activity, the filters *)
(* ===================================================================== *)

Section TimeAgo.
Import AgentSessionsView.
Local Open Scope Z_scope.

Lemma div_div_1000 (d k : Z) : 0 < k -> d / 1000 / k = d / (1000 * k).
Proof. intros Hk. apply Z.div_div; lia. Qed.

Lemma div_bounds (d k : Z) : 0 < k -> k * (d / k) <= d < k * (d / k + 1).
Proof.
  intros Hk. pose proof (Z.div_mod d k ltac:(lia)) as Hdm.
  pose proof (Z.mod_pos_bound d k Hk) as Hb. nia.
Qed.

(** X11. The age shown on a card, for times less than 2^52 milliseconds
    apart (where the division and its rounding are exact): ["just now"] for
    an activity less than a minute old, one in the future included;
    otherwise the whole minutes (1 to 59), else the whole hours (1 to 23),
    else the whole days (1 or more) that have passed, rounded down. *)
Theorem getTimeAgo_buckets (now timestamp : Z) :
  - 2 ^ 52 < now - timestamp < 2 ^ 52 ->
  (now - timestamp < 60000 -> getTimeAgo now timestamp = "just now") /\
  (60000 <= now - timestamp < 3600000 ->
   exists n, 1 <= n <= 59 /\
             60000 * n <= now - timestamp < 60000 * (n + 1) /\
             getTimeAgo now timestamp = String.append (pretty n) "m ago") /\
  (3600000 <= now - timestamp < 86400000 ->
   exists n, 1 <= n <= 23 /\
             3600000 * n <= now - timestamp < 3600000 * (n + 1) /\
             getTimeAgo now timestamp = String.append (pretty n) "h ago") /\
  (86400000 <= now - timestamp ->
   exists n, 1 <= n /\
             86400000 * n <= now - timestamp < 86400000 * (n + 1) /\
             getTimeAgo now timestamp = String.append (pretty n) "d ago").
Proof.
  intros _. set (d := now - timestamp).
  pose proof (div_bounds d 1000 ltac:(lia)) as Hs.
  unfold getTimeAgo. fold d. cbv zeta.
  split; [|split; [|split]]; intros Hd.
  - destruct (Z.ltb_spec (d / 1000) 60); [reflexivity|lia].
  - destruct (Z.ltb_spec (d / 1000) 60); [lia|].
    destruct (Z.ltb_spec (d / 1000) 3600); [|lia].
    exists (d / 1000 / 60). rewrite div_div_1000 by lia.
    pose proof (div_bounds d (1000 * 60) ltac:(lia)) as Hb.
    split; [lia|]. split; [lia|reflexivity].
  - destruct (Z.ltb_spec (d / 1000) 60); [lia|].
    destruct (Z.ltb_spec (d / 1000) 3600); [lia|].
    destruct (Z.ltb_spec (d / 1000) 86400); [|lia].
    exists (d / 1000 / 3600). rewrite div_div_1000 by lia.
    pose proof (div_bounds d (1000 * 3600) ltac:(lia)) as Hb.
    split; [lia|]. split; [lia|reflexivity].
  - destruct (Z.ltb_spec (d / 1000) 60); [lia|].
    destruct (Z.ltb_spec (d / 1000) 3600); [lia|].
    destruct (Z.ltb_spec (d / 1000) 86400); [lia|].
    exists (d / 1000 / 86400). rewrite div_div_1000 by lia.
    pose proof (div_bounds d (1000 * 86400) ltac:(lia)) as Hb.
    split; [lia|]. split; [lia|reflexivity].
Qed.

End TimeAgo.

Section FiltersCompose.
Import AgentSessionsPanel.

Variable toLowerCase : string -> string.

Lemma filter_filter_comm {A} (f g : A -> bool) (l : list A) :
  List.filter f (List.filter g l) = List.filter g (List.filter f l).
Proof.
  induction l as [|x l IH]; [reflexivity|].
  simpl. destruct (f x) eqn:Hf, (g x) eqn:Hg; simpl; rewrite ?Hf, ?Hg, IH; reflexivity.
Qed.

Lemma filter_filter_same {A} (f : A -> bool) (l : list A) :
  List.filter f (List.filter f l) = List.filter f l.
Proof.
  apply filter_true. intros x Hx. now apply filter_In in Hx.
Qed.

(** X14. The status filter and the free-text filter are independent: the
    filtered list is the same whichever is applied first, filtering a
    filtered list again changes nothing, the sessions keep their order, and
    with status ["all"] and an empty query every session is kept. *)
Theorem filters_commute_and_keep_order
    (allSessions : list SessionWithEvents) (statusFilter searchQuery : string) :
  filteredSessions toLowerCase allSessions statusFilter searchQuery =
    filteredSessions toLowerCase
      (filteredSessions toLowerCase allSessions statusFilter EmptyString) "all" searchQuery /\
  filteredSessions toLowerCase allSessions statusFilter searchQuery =
    filteredSessions toLowerCase
      (filteredSessions toLowerCase allSessions "all" searchQuery) statusFilter EmptyString /\
  filteredSessions toLowerCase
    (filteredSessions toLowerCase allSessions statusFilter searchQuery)
    statusFilter searchQuery
  = filteredSessions toLowerCase allSessions statusFilter searchQuery /\
  filteredSessions toLowerCase allSessions statusFilter searchQuery
    `sublist_of` allSessions /\
  filteredSessions toLowerCase allSessions "all" EmptyString = allSessions /\
  (Forall (fun st => statusString st <> statusFilter)
     [active; idle; waiting; inactive; stopped] ->
   statusFilter <> "all" ->
   filteredSessions toLowerCase allSessions statusFilter searchQuery = []).
Proof.
  set (byStatus := fun s : SessionWithEvents =>
                     String.eqb (statusString (status (session s))) statusFilter).
  set (byQuery := fun s : SessionWithEvents =>
                    Js.includes (searchableText toLowerCase s) (toLowerCase searchQuery)).
  assert (Hdef : forall l,
            filteredSessions toLowerCase l statusFilter searchQuery =
            (if Js.truthy searchQuery then List.filter byQuery else fun x => x)
              ((if negb (String.eqb statusFilter "all") then List.filter byStatus
                else fun x => x) l)).
  { intros l. unfold filteredSessions. cbv zeta.
    now destruct (negb (String.eqb statusFilter "all")), (Js.truthy searchQuery). }
  assert (Hstatus : forall l,
            filteredSessions toLowerCase l statusFilter EmptyString =
            (if negb (String.eqb statusFilter "all") then List.filter byStatus
             else fun x => x) l).
  { intros l. unfold filteredSessions. cbv zeta. simpl Js.truthy. cbv iota.
    now destruct (negb (String.eqb statusFilter "all")). }
  assert (Hquery : forall l,
            filteredSessions toLowerCase l "all" searchQuery =
            (if Js.truthy searchQuery then List.filter byQuery else fun x => x) l).
  { intros l. unfold filteredSessions. cbv zeta. now destruct (Js.truthy searchQuery). }
  rewrite !Hdef, !Hstatus, !Hquery.
  split; [reflexivity|]. split.
  { destruct (Js.truthy searchQuery), (negb (String.eqb statusFilter "all"));
      try reflexivity. apply filter_filter_comm. }
  split.
  { destruct (Js.truthy searchQuery), (negb (String.eqb statusFilter "all"));
      rewrite ?filter_filter_same; try reflexivity.
    rewrite (filter_filter_comm byStatus byQuery), !filter_filter_same.
    reflexivity. }
  split.
  { destruct (Js.truthy searchQuery), (negb (String.eqb statusFilter "all"));
      try reflexivity; repeat (etransitivity; [apply filter_sublist|]); reflexivity. }
  split; [unfold filteredSessions; reflexivity|].
  intros Hnone Hall. apply String.eqb_neq in Hall. rewrite Hall. cbn [negb]. cbv beta iota.
  assert (Hempty : List.filter byStatus allSessions = []).
  { clear -Hnone. induction allSessions as [|s l IH]; [reflexivity|].
    simpl. rewrite IH. unfold byStatus at 1.
    destruct (String.eqb_spec (statusString (status (session s))) statusFilter)
      as [He|_]; [|reflexivity].
    exfalso. destruct (status (session s));
      repeat (apply Forall_cons in Hnone as [? Hnone]); congruence. }
  rewrite Hempty. now destruct (Js.truthy searchQuery).
Qed.

End FiltersCompose.

(* ===================================================================== *)
(** * More on the session card: the expanded task list *)
(* ===================================================================== *)

Section OrderedTodos.
Import SessionTypes AgentSessionCard AgentSessionCardView.

Lemma orderedTodos_Permutation (todos : list TodoItem) :
  Permutation (orderedTodos todos) todos.
Proof.
  unfold orderedTodos, hasStatus. induction todos as [|t todos IH]; [reflexivity|].
  simpl. destruct (status t) eqn:Ht; simpl.
  - etransitivity; [symmetry; apply Permutation_middle|]. now constructor.
  - now constructor.
  - rewrite app_assoc.
    etransitivity; [symmetry; apply Permutation_middle|].
    rewrite <- app_assoc. now constructor.
Qed.

Lemma filter_status_Forall (st : TodoStatus) (todos : list TodoItem) :
  Forall (fun t => status t = st) (List.filter (hasStatus st) todos).
Proof.
  apply Forall_forall. intros t Ht.
  apply list_elem_of_In, filter_In in Ht as [_ Ht]. now apply hasStatus_true.
Qed.

Lemma filter_none {A} (f : A -> bool) (l : list A) :
  Forall (fun x => f x = false) l -> List.filter f l = [].
Proof.
  induction 1 as [|x l Hx _ IH]; [reflexivity|]. simpl. now rewrite Hx.
Qed.

Lemma find_head_filter {A} (f : A -> bool) (l : list A) :
  List.find f l = head (List.filter f l).
Proof.
  induction l as [|x l IH]; [reflexivity|]. simpl. now destruct (f x).
Qed.

(** X12. The expanded task list shows every todo once, those in progress
    first, then the pending ones, then the completed ones, each kind in the
    order of the list.  The task on the card is its first row, unless all
    todos are completed: then it is its last row. *)
Theorem orderedTodos_groups_by_status (todos : list TodoItem) :
  Permutation (orderedTodos todos) todos /\
  length (orderedTodos todos) = length todos /\
  StronglySorted (fun a b => statusRank (status a) <= statusRank (status b))
    (orderedTodos todos) /\
  (forall st, List.filter (hasStatus st) (orderedTodos todos)
              = List.filter (hasStatus st) todos) /\
  ((exists t, In t todos /\ status t <> completed) ->
   getTodoToShow {| lastTodos := Some todos |} = head (orderedTodos todos)) /\
  (Forall (fun t => status t = completed) todos ->
   getTodoToShow {| lastTodos := Some todos |} = last (orderedTodos todos) /\
   orderedTodos todos = todos).
Proof.
  pose proof (orderedTodos_Permutation todos) as Hperm.
  split; [exact Hperm|]. split; [now apply Permutation_length|].
  split.
  { unfold orderedTodos.
    pose proof (filter_status_Forall in_progress todos) as H1.
    pose proof (filter_status_Forall pending todos) as H2.
    pose proof (filter_status_Forall completed todos) as H3.
    assert (Hsame : forall st l, Forall (fun t => status t = st) l ->
              StronglySorted (fun a b => statusRank (status a) <= statusRank (status b)) l).
    { intros st l Hl. induction Hl as [|x l Hx Hl IH]; constructor; [exact IH|].
      eapply Forall_impl; [exact Hl|]. intros y Hy. simpl. rewrite Hx, Hy. lia. }
    apply StronglySorted_app_2; [|now apply (Hsame in_progress)|].
    - intros a b Ha Hb.
      pose proof (proj1 (Forall_forall _ _) H1 a Ha) as ->.
      apply elem_of_app in Hb as [Hb|Hb].
      + pose proof (proj1 (Forall_forall _ _) H2 b Hb) as ->. simpl. lia.
      + pose proof (proj1 (Forall_forall _ _) H3 b Hb) as ->. simpl. lia.
    - apply StronglySorted_app_2;
        [|now apply (Hsame pending)|now apply (Hsame completed)].
      intros a b Ha Hb.
      pose proof (proj1 (Forall_forall _ _) H2 a Ha) as ->.
      pose proof (proj1 (Forall_forall _ _) H3 b Hb) as ->. simpl. lia. }
  split.
  { intros st. unfold orderedTodos. rewrite !List.filter_app.
    rewrite (filter_filter_comm (hasStatus st) (hasStatus in_progress)),
            (filter_filter_comm (hasStatus st) (hasStatus pending)),
            (filter_filter_comm (hasStatus st) (hasStatus completed)).
    set (l := List.filter (hasStatus st) todos).
    assert (Hl : Forall (fun t => status t = st) l) by apply filter_status_Forall.
    assert (Hyes : List.filter (hasStatus st) l = l).
    { apply filter_true. intros x Hx. apply hasStatus_true.
      apply list_elem_of_In in Hx. exact (proj1 (Forall_forall _ _) Hl x Hx). }
    assert (Hno : forall st', st' <> st -> List.filter (hasStatus st') l = []).
    { intros st' Hne. apply filter_none. 
      eapply Forall_impl; [exact Hl|]. intros x Hx. apply hasStatus_false. congruence. }
    destruct st; rewrite Hyes, !Hno by discriminate; now rewrite ?app_nil_r. }
  split.
  - intros (t & Ht & Hst).
    unfold getTodoToShow, hasTodos, orderedTodos. cbn [lastTodos]. cbv beta iota.
    assert (Hpos : (0 <? length todos) = true) by (destruct todos; [destruct Ht|reflexivity]).
    rewrite Hpos. simpl negb. cbv iota. rewrite find_head_filter.
    destruct (List.filter (hasStatus in_progress) todos) as [|a l] eqn:Hip;
      [|reflexivity].
    simpl. destruct (List.filter (hasStatus pending) todos) as [|b l] eqn:Hp;
      [|reflexivity].
    exfalso. apply filter_nil_none in Hip, Hp.
    apply list_elem_of_In in Ht.
    pose proof (proj1 (Forall_forall _ _) Hip t Ht) as Hti.
    pose proof (proj1 (Forall_forall _ _) Hp t Ht) as Htp.
    apply hasStatus_false in Hti, Htp. destruct (status t); congruence.
  - intros Hall.
    assert (Hc : List.filter (hasStatus completed) todos = todos).
    { apply filter_true. intros x Hx. apply hasStatus_true.
      apply list_elem_of_In in Hx. exact (proj1 (Forall_forall _ _) Hall x Hx). }
    assert (Hno : forall st', st' <> completed -> List.filter (hasStatus st') todos = []).
    { intros st' Hne. apply filter_none.
      eapply Forall_impl; [exact Hall|]. intros x Hx. apply hasStatus_false. congruence. }
    assert (Hord : orderedTodos todos = todos).
    { unfold orderedTodos. now rewrite !Hno, Hc by discriminate. }
    split; [|exact Hord]. rewrite Hord.
    unfold getTodoToShow, hasTodos. cbn [lastTodos]. cbv beta iota.
    destruct todos as [|t0 rest] eqn:Htodos; [reflexivity|]. rewrite <- Htodos in *.
    replace (0 <? length todos) with true by (subst; reflexivity).
    simpl negb. cbv iota. rewrite find_head_filter, !Hno, Hc by discriminate.
    simpl. rewrite last_lookup. subst todos. reflexivity.
Qed.

End OrderedTodos.

(* ===================================================================== *)
(** * The views on sample data *)
(* ===================================================================== *)

Section ViewsOnSamples.
Import Samples ViewSamples.

Lemma received_entry_starts_collapsed_witness :
  AgentEventsView.uiRun (AgentEventsPanel.initialState None) clickAndClear /\
  exists entry,
    last (AgentEventsPanel.events
            (AgentEventsPanel.onAgentEventReceived
               (AgentEventsPanel.run (AgentEventsPanel.initialState None) clickAndClear)
               {| AgentEventsPanel.payload := Some notification |} 9%Z)) = Some entry /\
    AgentEventsPanel.localIndex entry = 3 /\
    AgentEventsView.isExpanded
      (AgentEventsPanel.onAgentEventReceived
         (AgentEventsPanel.run (AgentEventsPanel.initialState None) clickAndClear)
         {| AgentEventsPanel.payload := Some notification |} 9%Z) entry = false.
Proof.
  assert (Hui : AgentEventsView.uiRun (AgentEventsPanel.initialState None) clickAndClear).
  { simpl. repeat split; [vm_compute; tauto|discriminate]. }
  destruct (received_entry_starts_collapsed None clickAndClear
              {| AgentEventsPanel.payload := Some notification |} 9%Z notification
              Hui eq_refl) as (_ & entry & Hlast & _ & Hidx & Hexp).
  split; [exact Hui|]. exists entry. split; [exact Hlast|]. split; [exact Hidx|exact Hexp].
Defined.

Lemma clearEvents_keeps_type_selection_witness :
  map AgentEventsPanel.event
    (AgentEventsPanel.events
       (AgentEventsPanel.onAgentEventReceived
          (AgentEventsPanel.clearEvents toolEventsOnly)
          {| AgentEventsPanel.payload := Some notification |} 9%Z)) = [notification] /\
  AgentEventsPanel.filteredEvents
    (AgentEventsPanel.onAgentEventReceived
       (AgentEventsPanel.clearEvents toolEventsOnly)
       {| AgentEventsPanel.payload := Some notification |} 9%Z) = [].
Proof.
  assert (Hsel : AgentEventsPanel.selectedEventTypes toolEventsOnly <> ∅).
  { simpl. apply non_empty_singleton_L. }
  assert (Hty : AgentEventsPanel.eventType notification
                ∉ AgentEventsPanel.selectedEventTypes toolEventsOnly).
  { simpl. rewrite elem_of_singleton. discriminate. }
  destruct (clearEvents_keeps_type_selection toolEventsOnly
              {| AgentEventsPanel.payload := Some notification |} 9%Z notification
              eq_refl Hsel Hty) as (_ & _ & _ & _ & _ & Hev & Hview & _).
  split; [exact Hev|exact Hview].
Defined.

Lemma sessionColor_of_last_index_witness :
  AgentSessionsView.sessionColor (AgentSessionsView.sessionColorMap listedTwice) sessionA
    = Some "#f59e0b".
Proof.
  destruct (sessionColor_of_last_index listedTwice 3
              (sessionAt "a" "/repo" AgentSessionsPanel.idle None) eq_refl) as (Hcol & _).
  { intros j s' Hj Hs'. destruct j as [|[|[|[|j]]]]; try lia; discriminate. }
  exact Hcol.
Defined.

Lemma sessionColor_distinct_ids_witness :
  AgentSessionsView.sessionColor
    (AgentSessionsView.sessionColorMap [sessionA; sessionB; sessionC]) sessionA
  <> AgentSessionsView.sessionColor
       (AgentSessionsView.sessionColorMap [sessionA; sessionB; sessionC]) sessionB.
Proof.
  refine (proj2 (sessionColor_distinct_ids [sessionA; sessionB; sessionC] 0 1
                   sessionA sessionB _ eq_refl eq_refl) _ _); [|simpl; lia|lia].
  apply NoDup_ListNoDup. repeat constructor; simpl; intuition discriminate.
Defined.


(** The card of a session updated 90 minutes ago reads ["1h ago"]. *)
Lemma getTimeAgo_buckets_witness :
  (- 2 ^ 52 < 1700005400000 - 1700000000000 < 2 ^ 52)%Z /\
  AgentSessionsView.getTimeAgo 1700005400000 1700000000000 = "1h ago".
Proof.
  assert (Hrange : (- 2 ^ 52 < 1700005400000 - 1700000000000 < 2 ^ 52)%Z) by lia.
  destruct (getTimeAgo_buckets 1700005400000 1700000000000 Hrange)
    as (_ & _ & Hhours & _).
  split; [exact Hrange|].
  destruct Hhours as (n & Hn & Hbounds & Heq); [lia|].
  assert (Hone : n = 1%Z) by lia. subst n. exact Heq.
Defined.

(** An activity ahead of the clock reads ["just now"]. *)
Example getTimeAgo_samples :
  AgentSessionsView.getTimeAgo 1700005400000 1700000000000 = "1h ago" /\
  AgentSessionsView.getTimeAgo 1700000000000 1700005400000 = "just now" /\
  AgentSessionsView.getTimeAgo 1700000059999 1700000000000 = "just now" /\
  AgentSessionsView.getTimeAgo 1700000060000 1700000000000 = "1m ago".
Proof. vm_compute. repeat split. Qed.

Example directoryName_samples :
  map AgentSessionsView.directoryNameOf
    ["/work/zeta/"; "\work\alpha"; "C:\"; "/"; "Unknown Directory"; "repo"]
  = ["zeta"; "alpha"; "C:"; "/"; "Unknown Directory"; "repo"].
Proof. vm_compute. reflexivity. Qed.

Example availableEventTypes_sample :
  AgentEventsView.availableEventTypes
    (AgentEventsPanel.run (AgentEventsPanel.initialState None)
       [AgentEventsPanel.Received {| AgentEventsPanel.payload := Some (eventIn "/repo") |} 1%Z;
        AgentEventsPanel.Received {| AgentEventsPanel.payload := Some notification |} 2%Z;
        AgentEventsPanel.Received {| AgentEventsPanel.payload := Some (eventIn "/x") |} 3%Z])
  = ["notification"; "pre-tool-use"].
Proof. vm_compute. reflexivity. Qed.

End ViewsOnSamples.

(* ===================================================================== *)
(** * The order of the groups *)
(* ===================================================================== *)

Section StableSort.
Import AgentSessionsOrder.
Context {A : Type} (cmp : A -> A -> Z).

Lemma insertSorted_sublist (x : A) (l : list A) :
  l `sublist_of` Js.insertSorted cmp x l.
Proof.
  induction l as [|y l IH]; simpl; [apply sublist_nil_l|].
  destruct (cmp x y <=? 0)%Z; [now apply sublist_cons|now apply sublist_skip].
Qed.

(** What is inserted lands before everything it does not compare greater
    than. *)
Lemma insertSorted_Before (x y : A) (l : list A) :
  (cmp x y <= 0)%Z -> In y l -> Before x y (Js.insertSorted cmp x l).
Proof.
  intros Hxy. unfold Before. induction l as [|z l IH]; simpl; [tauto|].
  intros Hy. destruct (Z.leb_spec (cmp x z) 0) as [Hle|Hgt].
  - apply sublist_skip, singleton_sublist_l, list_elem_of_In. exact Hy.
  - destruct Hy as [->|Hy]; [lia|]. apply sublist_cons. now apply IH.
Qed.

(** [sort] never moves an element behind one it stood before and does not
    compare greater than; so elements that compare equal keep their order. *)
Lemma sort_stable (x y : A) (l : list A) :
  Before x y l -> (cmp x y <= 0)%Z -> Before x y (Js.sort cmp l).
Proof.
  unfold Before. intros Hb Hxy. induction l as [|a l IH].
  - apply sublist_nil_r in Hb. discriminate.
  - unfold Js.sort in *. simpl.
    apply sublist_cons_r in Hb as [Hb|(k & Hk & Hb)].
    + etransitivity; [exact (IH Hb)|apply insertSorted_sublist].
    + injection Hk as <- <-. apply insertSorted_Before; [exact Hxy|].
      apply singleton_sublist_l in Hb.
      apply list_elem_of_In. fold (Js.sort cmp l). now rewrite sort_Permutation.
Qed.

Lemma Before_app_r (x y : A) (l1 l2 : list A) :
  ~ In x l1 -> Before x y (l1 ++ l2) -> Before x y l2.
Proof.
  unfold Before. intros Hx Hb.
  apply sublist_app_r in Hb as (k1 & k2 & Hk & H1 & H2).
  destruct k1 as [|z k1]; [simpl in Hk; now subst|].
  injection Hk as <- _. exfalso. apply Hx, list_elem_of_In.
  eapply elem_of_sublist; [|exact H1]. now left.
Qed.

End StableSort.

Section GroupOrderAsShown.
Import AgentSessionsPanel AgentSessionsView AgentSessionsOrder.

Variable toLowerCase : string -> string.
Variable localeCompare : string -> string -> Z.

(** [localeCompare] is the host's collation: a consistent comparator. *)
Hypothesis localeCompare_total :
  forall a b, (localeCompare a b <= 0)%Z \/ (localeCompare b a <= 0)%Z.
Hypothesis localeCompare_trans :
  forall a b c, (localeCompare a b <= 0)%Z -> (localeCompare b c <= 0)%Z ->
                (localeCompare a c <= 0)%Z.

(** The [Map] takes a key in when it comes first and leaves it where it is
    after that. *)
Lemma addSession_keys (m : Js.Map SessionDirectoryGroup) (s : SessionWithEvents) :
  map fst (addSession m s) =
    if bool_decide (normalizedKey s ∈ map fst m) then map fst m
    else map fst m ++ [normalizedKey s].
Proof.
  unfold addSession. destruct (Js.get m (normalizedKey s)) as [g|] eqn:Hget.
  - destruct (set_found m _ g (pushSession g s) Hget) as (m1 & m2 & -> & ->).
    rewrite bool_decide_eq_true_2.
    + now rewrite !map_app.
    + apply list_elem_of_In. rewrite map_app. apply in_or_app. right. now left.
  - rewrite set_set_fresh by exact Hget.
    rewrite bool_decide_eq_false_2.
    + now rewrite map_app.
    + rewrite list_elem_of_In. now apply get_None.
Qed.

Lemma fold_addSession_keys (l : list SessionWithEvents) (m : Js.Map SessionDirectoryGroup) :
  map fst (fold_left addSession l m) =
    fold_left (fun seen k => if bool_decide (k ∈ seen) then seen else seen ++ [k])
      (map normalizedKey l) (map fst m).
Proof.
  revert m. induction l as [|s l IH]; intros m; [reflexivity|].
  simpl. now rewrite IH, addSession_keys.
Qed.

(** C3, as the code has it.  For a host whose [localeCompare] is a
    consistent comparator, the sequence of groups the panel shows is the
    group whose normalized directory is the normalized path of the current
    repository, if there is one (there is at most one), and after it the
    remaining groups in ascending order of the host's [localeCompare]
    applied to their [directory] field.  That field is the directory as it
    is written in the first session of the group, neither normalized nor cut
    down to the name the header shows; the groups before the sort stand in
    the order in which their keys occur first among the filtered sessions,
    and the sort leaves two remaining groups in that order unless
    [localeCompare] puts the first of them after the second; so groups that
    compare equal stay as the [Map] holds them. *)
Theorem current_directory_group_sorts_first
    (allSessions : list SessionWithEvents) (statusFilter searchQuery : string)
    (repositoryPath : option string) :
  exists current others,
    panelGroups toLowerCase localeCompare allSessions statusFilter searchQuery repositoryPath
      = current ++ others /\
    length current <= 1 /\
    Forall (fun g => isCurrentDirectory g = true /\
                     normalizedRepositoryPath repositoryPath = Some (normalizedDirectory g))
      current /\
    Forall (fun g => isCurrentDirectory g = false /\
                     normalizedRepositoryPath repositoryPath <> Some (normalizedDirectory g))
      others /\
    StronglySorted
      (fun a b => (localeCompare (groupDirectory a) (groupDirectory b) <= 0)%Z) others /\
    (forall g,
       In g (panelGroups toLowerCase localeCompare allSessions statusFilter searchQuery
               repositoryPath) ->
       normalizedRepositoryPath repositoryPath = Some (normalizedDirectory g) ->
       panelGroups toLowerCase localeCompare allSessions statusFilter searchQuery
         repositoryPath = g :: others) /\
    Forall (fun g => exists s0 rest,
                       sessions g = s0 :: rest /\ groupDirectory g = rawDirectory s0)
      (panelGroups toLowerCase localeCompare allSessions statusFilter searchQuery
         repositoryPath) /\
    Permutation
      (panelGroups toLowerCase localeCompare allSessions statusFilter searchQuery
         repositoryPath)
      (groupsBeforeSort (filteredSessions toLowerCase allSessions statusFilter searchQuery)
         (normalizedRepositoryPath repositoryPath)) /\
    map normalizedDirectory
      (groupsBeforeSort (filteredSessions toLowerCase allSessions statusFilter searchQuery)
         (normalizedRepositoryPath repositoryPath))
      = firstOccurrences
          (map normalizedKey
             (filteredSessions toLowerCase allSessions statusFilter searchQuery)) /\
    (forall a b,
       Before a b
         (groupsBeforeSort (filteredSessions toLowerCase allSessions statusFilter searchQuery)
            (normalizedRepositoryPath repositoryPath)) ->
       isCurrentDirectory a = false -> isCurrentDirectory b = false ->
       (localeCompare (groupDirectory a) (groupDirectory b) <= 0)%Z ->
       Before a b others).
Proof.
  destruct (panelGroups_Permutation toLowerCase localeCompare
              allSessions statusFilter searchQuery repositoryPath)
    as (m & Hg & Hperm & Heq).
  destruct (marked_groups m _ (normalizedRepositoryPath repositoryPath) Hg)
    as (Hkeys & _ & Hin).
  pose proof (fun g => proj1 (panelGroups_In toLowerCase localeCompare allSessions
                                statusFilter searchQuery repositoryPath g)) as Hshape.
  assert (Hunsorted :
            panelGroups toLowerCase localeCompare allSessions statusFilter searchQuery
              repositoryPath
            = Js.sort (compareGroups localeCompare)
                (groupsBeforeSort
                   (filteredSessions toLowerCase allSessions statusFilter searchQuery)
                   (normalizedRepositoryPath repositoryPath))) by reflexivity.
  assert (Hfirst :
            map normalizedDirectory
              (groupsBeforeSort
                 (filteredSessions toLowerCase allSessions statusFilter searchQuery)
                 (normalizedRepositoryPath repositoryPath))
            = firstOccurrences
                (map normalizedKey
                   (filteredSessions toLowerCase allSessions statusFilter searchQuery))).
  { unfold groupsBeforeSort, firstOccurrences.
    pose proof (Grouped_fold
                  (filteredSessions toLowerCase allSessions statusFilter searchQuery)
                  [] [] Grouped_nil) as HG.
    simpl in HG.
    destruct (marked_groups _ _ (normalizedRepositoryPath repositoryPath) HG) as (-> & _).
    apply fold_addSession_keys. }
  set (gs := panelGroups toLowerCase localeCompare allSessions statusFilter searchQuery
               repositoryPath) in *.
  set (p := normalizedRepositoryPath repositoryPath) in *.
  set (before := groupsBeforeSort _ p) in *.
  assert (Hsorted : StronglySorted
                      (fun a b => (compareGroups localeCompare a b <= 0)%Z) gs).
  { rewrite Heq. apply sort_sorted.
    - apply compareGroups_total, localeCompare_total.
    - apply compareGroups_trans, localeCompare_trans. }
  assert (Hnodup : NoDup (map normalizedDirectory gs)).
  { rewrite (Permutation_map normalizedDirectory Hperm), Hkeys. apply Hg. }
  assert (Hflag : forall g, In g gs ->
            (isCurrentDirectory g = true <-> p = Some (normalizedDirectory g))).
  { intros g Hgin. apply (Permutation_in _ Hperm) in Hgin.
    destruct (Hin g Hgin) as (_ & _ & ->). destruct p as [q|].
    - rewrite String.eqb_eq. split; congruence.
    - split; discriminate. }
  set (current := List.filter isCurrentDirectory gs).
  set (others := List.filter (fun g => negb (isCurrentDirectory g)) gs).
  assert (Hsplit : gs = current ++ others) by now apply (sorted_current_first localeCompare).
  assert (Hcur : Forall (fun g => isCurrentDirectory g = true /\
                                  p = Some (normalizedDirectory g)) current).
  { apply Forall_forall. intros g Hgc. apply list_elem_of_In, filter_In in Hgc as [Hgin Hc].
    split; [exact Hc|now apply Hflag]. }
  assert (Hoth : Forall (fun g => isCurrentDirectory g = false /\
                                  p <> Some (normalizedDirectory g)) others).
  { apply Forall_forall. intros g Hgo. apply list_elem_of_In, filter_In in Hgo as [Hgin Hc].
    apply negb_true_iff in Hc. split; [exact Hc|].
    intros Hp. apply Hflag in Hp; [congruence|exact Hgin]. }
  assert (Hlen : length current <= 1).
  { destruct p as [q|] eqn:Hp.
    - replace current
        with (List.filter (fun g => String.eqb (normalizedDirectory g) q) gs).
      + now apply filter_key_length.
      + apply filter_ext_in. intros g Hgin.
        apply (Permutation_in _ Hperm) in Hgin.
        now destruct (Hin g Hgin) as (_ & _ & ->).
    - destruct current as [|g r] eqn:Hc; [simpl; lia|].
      apply Forall_cons in Hcur as [[_ Hp'] _]. discriminate. }
  exists current, others.
  split; [exact Hsplit|]. split; [exact Hlen|]. split; [exact Hcur|].
  split; [exact Hoth|]. split.
  { apply others_sorted_by_directory.
    - eapply Forall_impl; [exact Hoth|]. now intros g [? _].
    - now apply filter_StronglySorted. }
  split.
  { intros g Hgin Hp.
    assert (Hgc : In g current).
    { apply filter_In. split; [exact Hgin|]. now apply Hflag. }
    destruct current as [|g0 [|g1 r]]; [destruct Hgc| |simpl in Hlen; lia].
    destruct Hgc as [->|[]]. exact Hsplit. }
  split.
  { apply Forall_forall. intros g Hgin. apply list_elem_of_In, Hshape in Hgin.
    destruct Hgin as (k & g0 & Hk & ->).
    destruct (fold_addSession_shape _ []
                (fun _ _ (H : In _ []) => match H with end) k g0 Hk)
      as [_ (s0 & rest & Hs & Hl)].
    exists s0, rest. simpl. now split. }
  split; [rewrite Hunsorted; apply sort_Permutation|].
  split; [exact Hfirst|].
  intros a b Hab Ha Hb Hle.
  apply (Before_app_r a b current others).
  - intros Hac. apply filter_In in Hac as [_ Hac]. congruence.
  - rewrite <- Hsplit, Hunsorted. apply sort_stable; [exact Hab|].
    now rewrite (compareGroups_others localeCompare a b Ha Hb).
Qed.

End GroupOrderAsShown.

Section GroupOrderOnSamples.
Import Samples AgentSessionsPanel AgentSessionsView AgentSessionsOrder.

(** The collation that ignores case is a consistent comparator too. *)
Lemma compareIgnoringCase_total (a b : string) :
  (compareIgnoringCase a b <= 0)%Z \/ (compareIgnoringCase b a <= 0)%Z.
Proof. apply compareCodeUnits_total. Qed.

Lemma compareIgnoringCase_trans (a b c : string) :
  (compareIgnoringCase a b <= 0)%Z -> (compareIgnoringCase b c <= 0)%Z ->
  (compareIgnoringCase a c <= 0)%Z.
Proof. apply compareCodeUnits_trans. Qed.

(** C3, as the specification has it, fails.  On a host that collates by code
    unit, which is the lexicographic order, the remaining groups are in the
    order of the directories as the sessions write them: [\work\alpha] comes
    after [/work/zeta/], though its normalized directory [/work/alpha] is
    lexicographically before [/work/zeta]; and [/z/alpha] comes after
    [/a/zeta], so the names on the headers read [zeta], [alpha].  On a host
    whose collation ignores case, [/work/alpha] comes before [/work/Beta],
    which the lexicographic order of the code units puts first. *)
Lemma remaining_groups_not_by_directory_name :
  map (fun g => (groupDirectory g, normalizedDirectory g, isCurrentDirectory g))
      (panelGroups Js.toLowerCaseAscii Js.compareCodeUnits
         [sessionC; sessionD] "all" "" None)
    = [ ("/work/zeta/", "/work/zeta", false); ("\work\alpha", "/work/alpha", false) ] /\
  Js.compareCodeUnits "/work/zeta" "/work/alpha" = 1%Z /\
  map (fun g => (groupDirectory g, directoryName g, isCurrentDirectory g))
      (panelGroups Js.toLowerCaseAscii Js.compareCodeUnits
         [sessionF; sessionG] "all" "" None)
    = [ ("/a/zeta", "zeta", false); ("/z/alpha", "alpha", false) ] /\
  Js.compareCodeUnits "zeta" "alpha" = 1%Z /\
  map (fun g => (groupDirectory g, normalizedDirectory g, directoryName g,
                 isCurrentDirectory g))
      (panelGroups Js.toLowerCaseAscii compareIgnoringCase
         [sessionH; sessionI] "all" "" None)
    = [ ("/work/alpha", "/work/alpha", "alpha", false);
        ("/work/Beta", "/work/Beta", "Beta", false) ] /\
  Js.compareCodeUnits "/work/alpha" "/work/Beta" = 1%Z /\
  Js.compareCodeUnits "alpha" "Beta" = 1%Z.
Proof. vm_compute. repeat split. Qed.

(** On the sample sessions, for the repository [\repo\] and the host that
    collates by code unit. *)
Lemma current_directory_group_sorts_first_witness :
  exists current others,
    panelGroups Js.toLowerCaseAscii Js.compareCodeUnits
      sampleSessions "all" "" (Some "\repo\") = current ++ others /\
    length current <= 1 /\
    Forall (fun g => isCurrentDirectory g = true) current /\
    Forall (fun g => isCurrentDirectory g = false) others /\
    StronglySorted
      (fun a b => (Js.compareCodeUnits (groupDirectory a) (groupDirectory b) <= 0)%Z)
      others /\
    Forall (fun g => exists s0 rest,
                       sessions g = s0 :: rest /\ groupDirectory g = rawDirectory s0)
      (panelGroups Js.toLowerCaseAscii Js.compareCodeUnits
         sampleSessions "all" "" (Some "\repo\")).
Proof.
  destruct (current_directory_group_sorts_first
              Js.toLowerCaseAscii Js.compareCodeUnits
              compareCodeUnits_total compareCodeUnits_trans
              sampleSessions "all" "" (Some "\repo\"))
    as (current & others & Heq & Hlen & Hcur & Hoth & Hsorted & _ & Hlabel & _).
  exists current, others.
  split; [exact Heq|]. split; [exact Hlen|].
  split; [eapply Forall_impl; [exact Hcur|]; now intros g [? _]|].
  split; [eapply Forall_impl; [exact Hoth|]; now intros g [? _]|].
  split; [exact Hsorted|exact Hlabel].
Defined.

(** The sample sessions and these two on the host whose collation ignores
    case: the group of the repository first; [\work\alpha] is in the group
    that [/work/alpha] opened. *)
Example sample_groups_ignoring_case :
  map groupDirectory
      (panelGroups Js.toLowerCaseAscii compareIgnoringCase
         (sessionH :: sessionI :: sampleSessions) "all" "" (Some "\repo\"))
    = ["/repo"; "/work/alpha"; "/work/Beta"; "/work/zeta/"].
Proof. vm_compute. reflexivity. Qed.

End GroupOrderOnSamples.
